(** * i18n-ally: package-manifest scanning and the [Global] lifecycle controller

    A shallow embedding of
    - [PackageParser] / [PackageJSONParser] / [ComposerJSONParser]
      (src/packagesParsers), and
    - the [Global] controller (src/core/Global.ts),
    together with the properties of the design specification that concern
    them. *)

From Stdlib Require Import Ascii String.
From stdpp Require Import gmap strings list pretty sorting.

Set Warnings "-register-all".

(** ** Exceptions

    JavaScript exceptions that the modelled code can raise.  A computation
    that may throw has type [exn + A]. *)

Inductive exn :=
| SyntaxError          (* JSON.parse on malformed text *)
| TypeError            (* destructuring / Object.keys of null *)
| FsError (code : string).  (* ENOENT, ENOTDIR, EISDIR, ... *)

Definition throws (A : Type) : Type := exn + A.

Definition ret {A} (a : A) : throws A := inr a.
Definition throw {A} (e : exn) : throws A := inl e.
Definition bind {A B} (m : throws A) (k : A → throws B) : throws B :=
  match m with
  | inl e => inl e
  | inr a => k a
  end.

Notation "'let?' x ':=' m 'in' k" := (bind m (fun x => k))
  (at level 10, x name, m at level 100, k at level 200).

(** ** Node's [path] module (POSIX flavour)

    [path.sep] is "/".  The functions below follow the documented behaviour
    of [path.normalize], [path.join] and [path.relative]; [relative] is
    applied to absolute paths only (VS Code [fsPath]s), so [path.resolve]
    reduces to normalisation of the segments. *)

Module Path.

Definition sep : ascii := "/"%char.

(** [String.prototype.split(path.sep)] *)
Fixpoint split (s : string) : list string :=
  match s with
  | EmptyString => [""]
  | String c s' =>
      if Ascii.eqb c sep then "" :: split s'
      else match split s' with
           | [] => [String c ""]
           | x :: xs => String c x :: xs
           end
  end.

(** [Array.prototype.join(path.sep)] *)
Fixpoint join_sep (l : list string) : string :=
  match l with
  | [] => ""
  | x :: l' =>
      match l' with
      | [] => x
      | _ :: _ => x +:+ String sep (join_sep l')
      end
  end.

(** [normalizeString]: resolves "." and ".." segments.  [res] is the
    stack of segments kept so far, innermost first. *)
Fixpoint normalizeString (allowAboveRoot : bool) (segs res : list string)
  : list string :=
  match segs with
  | [] => rev res
  | seg :: segs' =>
      if String.eqb seg "" || String.eqb seg "." then
        normalizeString allowAboveRoot segs' res
      else if String.eqb seg ".." then
        match res with
        | r :: res' =>
            if String.eqb r ".." then
              normalizeString allowAboveRoot segs'
                (if allowAboveRoot then ".." :: res else res)
            else normalizeString allowAboveRoot segs' res'
        | [] =>
            normalizeString allowAboveRoot segs'
              (if allowAboveRoot then [".."] else [])
        end
      else normalizeString allowAboveRoot segs' (seg :: res)
  end.

Definition isAbsolute (p : string) : bool :=
  match p with
  | String c _ => Ascii.eqb c sep
  | EmptyString => false
  end.

Fixpoint endsWithSep (p : string) : bool :=
  match p with
  | EmptyString => false
  | String c p' =>
      match p' with
      | EmptyString => Ascii.eqb c sep
      | String _ _ => endsWithSep p'
      end
  end.

Definition normalize (p : string) : string :=
  if String.eqb p "" then "."
  else
    let abs := isAbsolute p in
    let trailing := endsWithSep p in
    match normalizeString (negb abs) (split p) [] with
    | [] => if abs then "/" else if trailing then "./" else "."
    | segs =>
        (if abs then "/" else "") +:+ join_sep segs
          +:+ (if trailing then "/" else "")
    end.

(** [path.join(...args)]: zero-length arguments are skipped. *)
Definition join (args : list string) : string :=
  match List.filter (fun a => negb (String.eqb a "")) args with
  | [] => "."
  | l => normalize (join_sep l)
  end.

(** Segments of [path.resolve(p)] for an absolute [p]. *)
Definition resolve_segs (p : string) : list string :=
  normalizeString false (split p) [].

Fixpoint strip_common (f t : list string) : list string * list string :=
  match f, t with
  | x :: f', y :: t' =>
      if String.eqb x y then strip_common f' t' else (f, t)
  | _, _ => (f, t)
  end.

(** [path.relative(from, to)] *)
Definition relative (from to : string) : string :=
  if String.eqb from to then ""
  else
    let '(f, t) := strip_common (resolve_segs from) (resolve_segs to) in
    join_sep (repeat ".." (length f) ++ t).

(** A directory or file name: not empty, not "." or "..", no separator. *)
Fixpoint hasSep (s : string) : bool :=
  match s with
  | EmptyString => false
  | String c s' => Ascii.eqb c sep || hasSep s'
  end.

Definition isName (seg : string) : bool :=
  negb (String.eqb seg "") && negb (String.eqb seg ".")
  && negb (String.eqb seg "..") && negb (hasSep seg).

Definition names (l : list string) : Prop :=
  Forall (fun seg => isName seg = true) l.

(** The absolute path made of the given names. *)
Definition absPath (segs : list string) : string :=
  String sep (join_sep segs).

(** The folders from [rs ++ ds] up to [rs], closest first. *)
Definition ancestors (rs ds : list string) : list string :=
  map (fun i => absPath (rs ++ take i ds)) (rev (seq 0 (S (length ds)))).

(** [path.dirname(p)]: the scan runs from the last character down to the
    second one; trailing separators are skipped, then the last name, and
    the path is cut at the separator met next. *)
Fixpoint dropSeps (l : list ascii) : list ascii :=
  match l with
  | c :: l' => if Ascii.eqb c sep then dropSeps l' else l
  | [] => []
  end.

Fixpoint dropName (l : list ascii) : list ascii :=
  match l with
  | c :: l' => if Ascii.eqb c sep then l else dropName l'
  | [] => []
  end.

Definition dirname (p : string) : string :=
  match p with
  | EmptyString => "."
  | String c0 rest =>
      let hasRoot := Ascii.eqb c0 sep in
      match dropName (dropSeps (rev (list_ascii_of_string rest))) with
      | [] => if hasRoot then "/" else "."
      | _ :: before =>
          if hasRoot && (length before =? 0) then "//"
          else String c0 (string_of_list_ascii (rev before))
      end
  end.

End Path.

(** ** JSON values and the JavaScript operations applied to them *)

(** A parsed document.  The property list of a [JObj] holds the own
    properties, each name once, in the order of their creation, which for
    [JSON.parse] is the order in which the names first occur in the text. *)
Inductive json :=
| JNull
| JBool (b : bool)
| JNum (n : Z)
| JStr (s : string)
| JArr (items : list json)
| JObj (props : list (string * json)).

Definition digit (c : ascii) : option N :=
  let n := N_of_ascii c in
  if ((48 <=? n) && (n <=? 57))%N then Some (n - 48)%N else None.

Fixpoint numeral (acc : N) (s : string) : option N :=
  match s with
  | EmptyString => Some acc
  | String c rest =>
      match digit c with
      | Some d => numeral (10 * acc + d)%N rest
      | None => None
      end
  end.

(** The array index that a property name denotes, if it denotes one: a
    decimal numeral without sign and without leading zero, below 2^32 - 1. *)
Definition arrayIndex (name : string) : option N :=
  match name with
  | EmptyString => None
  | String c rest =>
      if Ascii.eqb c "0"%char && negb (String.eqb rest "") then None
      else
        match numeral 0%N name with
        | Some n => if (n <? 4294967295)%N then Some n else None
        | None => None
        end
  end.

Definition isIndex (name : string) : bool :=
  bool_decide (is_Some (arrayIndex name)).

Definition indexLe (a b : string) : Prop :=
  (default 0 (arrayIndex a) ≤ default 0 (arrayIndex b))%N.

#[global] Instance indexLe_dec : RelDecision indexLe.
Proof. intros a b. unfold indexLe. apply _. Defined.

(** The own property names of an object in the order in which
    [Object.keys] (as [for ... in] and [JSON.stringify]) lists them: the
    names that are array indices first, in ascending numeric order, then
    the other names in the order of their creation. *)
Definition ownKeys (props : list (string * json)) : list string :=
  let names := map fst props in
  merge_sort indexLe (List.filter isIndex names)
  ++ List.filter (fun name => negb (isIndex name)) names.

(** The keys of a string or an array of length [n]. *)
Definition index_keys (n : nat) : list string :=
  map (fun i => pretty i) (seq 0 n).

(** [Object.keys(v)]; throws on [null]. *)
Definition Object_keys (v : json) : throws (list string) :=
  match v with
  | JNull => throw TypeError
  | JBool _ | JNum _ => ret []
  | JStr s => ret (index_keys (String.length s))
  | JArr items => ret (index_keys (length items))
  | JObj props => ret (ownKeys props)
  end.

Fixpoint assoc (k : string) (props : list (string * json)) : option json :=
  match props with
  | [] => None
  | (k', v) :: props' => if String.eqb k k' then Some v else assoc k props'
  end.

(** One binding of an object destructuring pattern with default [{}]:
    [const { k = {} } = v].  Destructuring [null] throws; a property that is
    absent (undefined) takes the default, any other value is kept. *)
Definition destructure (k : string) (v : json) : throws json :=
  match v with
  | JNull => throw TypeError
  | JObj props =>
      match assoc k props with
      | Some x => ret x
      | None => ret (JObj [])
      end
  | _ => ret (JObj [])
  end.

(** ** The file system as seen by the scanner

    A directory tree.  [fs.readdirSync(dir, { withFileTypes: true })] yields
    the entries of a directory; a symbolic link is not a directory entry of
    directory type, so the traversal never leaves the tree.  The tree holds
    what can be listed: a directory that the process may not read is not
    represented, and the exception with which [readdirSync] answers it
    (EACCES), which would leave [load] as ENOTDIR does, is not modelled. *)

Inductive node :=
| File (content : string)
| Dir (entries : list (string * node)).

Definition isDirectory (n : node) : bool :=
  match n with
  | Dir _ => true
  | File _ => false
  end.

(** [fs.existsSync(path.join(dir, name))] for a plain file name [name],
    where [n] is the object found at [dir]. *)
Definition existsSync (n : node) (name : string) : bool :=
  match n with
  | Dir es => existsb (fun e => String.eqb (fst e) name) es
  | File _ => false
  end.

(** A JavaScript [Set<string>]: insertion-ordered, no repeated element. *)
Definition SetAdd (x : string) (s : list string) : list string :=
  if bool_decide (x ∈ s) then s else s ++ [x].

(** ** [PackageParser] and its subclasses *)

(** What the environment provides to the parsers. *)
Record Host := {
  JSON_parse : string → throws json;
  File_readSync : string → throws string;
}.

(** The static members a subclass may override. *)
Record PackageParser := {
  filename : string;
  ignoreDirectories : list string;
  parserRaw : Host → string → throws (list string);
}.

Definition parserRaw_default (H : Host) (raw : string) : throws (list string) :=
  let? obj := JSON_parse H raw in
  let? dependencies := destructure "dependencies" obj in
  let? devDependencies := destructure "devDependencies" obj in
  let? peerDependencies := destructure "peerDependencies" obj in
  let? k1 := Object_keys dependencies in
  let? k2 := Object_keys devDependencies in
  let? k3 := Object_keys peerDependencies in
  ret (k1 ++ k2 ++ k3).

(** The defaults of the abstract base class, for a subclass that only sets
    [filename]. *)
Definition basePackageParser (fname : string) : PackageParser := {|
  filename := fname;
  ignoreDirectories := [".git"];
  parserRaw := parserRaw_default;
|}.

Definition PackageJSONParser : PackageParser := {|
  filename := "package.json";
  ignoreDirectories := ["node_modules"; ".git"];
  parserRaw := parserRaw_default;
|}.


Definition loadFile (H : Host) (filepath : string) : throws string :=
  File_readSync H filepath.

(** [includes] on an array of strings. *)
Definition includes (l : list string) (x : string) : bool :=
  existsb (String.eqb x) l.

(** The closure [traverseDirectory] of [load]; [acc] is the captured set
    [packageFilepaths], [dir] the object found at path [subdir].
    [fs.readdirSync(subdir)] yields the entries of a directory and fails
    with ENOTDIR on a file; the filter on [isDirectory()] and on the ignore
    list is applied entry by entry inside the loop. *)
Fixpoint traverseDirectory (fname : string) (ignoreDirs : list string)
    (subdir : string) (dir : node) (acc : list string) : throws (list string) :=
  let packageFilepath := Path.join [subdir; fname] in
  let acc := if existsSync dir fname then SetAdd packageFilepath acc else acc in
  match dir with
  | File _ => throw (FsError "ENOTDIR")
  | Dir es =>
      (fix each (dirents : list (string * node)) (acc : list string)
         : throws (list string) :=
         match dirents with
         | [] => ret acc
         | (name, child) :: rest =>
             if isDirectory child && negb (includes ignoreDirs name) then
               let? acc' := traverseDirectory fname ignoreDirs
                              (Path.join [subdir; name]) child acc in
               each rest acc'
             else each rest acc
         end) es acc
  end.

(** The loop over the sub-directories of one directory, by name. *)
Definition traverseSubdirs (fname : string) (ignoreDirs : list string)
    (subdir : string) :=
  fix each (dirents : list (string * node)) (acc : list string)
    : throws (list string) :=
    match dirents with
    | [] => ret acc
    | (name, child) :: rest =>
        if isDirectory child && negb (includes ignoreDirs name) then
          let? acc' := traverseDirectory fname ignoreDirs
                         (Path.join [subdir; name]) child acc in
          each rest acc'
        else each rest acc
    end.

(** Informational signals of [load]. *)
Inductive log_msg :=
| LogNotExists (fname : string)
| LogFound (fname : string)
| LogParseError (fname root : string).

(** Body of the [try] block: read and parse every collected manifest. *)
Fixpoint parseAll (P : PackageParser) (H : Host) (filepaths data : list string)
  : throws (list string) :=
  match filepaths with
  | [] => ret data
  | filepath :: rest =>
      let? raw := loadFile H filepath in
      let? deps := parserRaw P H raw in
      parseAll P H rest (data ++ deps)
  end.

(** The set [packageFilepaths] once the traversal is over. *)
Definition scan (P : PackageParser) (root : string) (rootDir : node)
  : throws (list string) :=
  let rootPackageFilepath := Path.join [root; filename P] in
  let packageFilepaths :=
    if existsSync rootDir (filename P) then SetAdd rootPackageFilepath []
    else [] in
  traverseDirectory (filename P) (ignoreDirectories P) root rootDir
    packageFilepaths.

(** [PackageParser.load(root)]: the outcome (a thrown exception, or the
    returned value with [None] for [undefined]) and the lines logged. *)
Definition load (P : PackageParser) (H : Host) (root : string) (rootDir : node)
  : throws (option (list string)) * list log_msg :=
  match scan P root rootDir with
  | inl e => (throw e, [])
  | inr packageFilepaths =>
      if length packageFilepaths =? 0 then
        (ret None, [LogNotExists (filename P)])
      else
        match parseAll P H packageFilepaths [] with
        | inr data => (ret (Some data), [LogFound (filename P)])
        | inl _ =>
            (ret None,
             [LogFound (filename P); LogParseError (filename P) root])
        end
  end.

(** *** What the scan is expected to collect

    [descendant ignoreDirs p es d des]: the directory at path [d], with
    entries [des], lies strictly below the directory at path [p], with
    entries [es], and no directory on the way from [p] (excluded) to [d]
    (included) bears a name of [ignoreDirs]. *)

Inductive descendant (ignoreDirs : list string)
  : string → list (string * node) → string → list (string * node) → Prop :=
| desc_child p es name ces :
    (name, Dir ces) ∈ es →
    includes ignoreDirs name = false →
    descendant ignoreDirs p es (Path.join [p; name]) ces
| desc_deeper p es name ces d des :
    (name, Dir ces) ∈ es →
    includes ignoreDirs name = false →
    descendant ignoreDirs (Path.join [p; name]) ces d des →
    descendant ignoreDirs p es d des.

(** The manifest of the directory at [p] itself, or of a descendant that the
    ignore list does not cut off. *)
Definition found (fname : string) (ignoreDirs : list string)
    (p : string) (es : list (string * node)) (q : string) : Prop :=
  (existsSync (Dir es) fname = true ∧ q = Path.join [p; fname])
  ∨ ∃ d des, descendant ignoreDirs p es d des
             ∧ existsSync (Dir des) fname = true
             ∧ q = Path.join [d; fname].

(** What one call of [traverseDirectory] adds to the captured set. *)
Definition traversal_ok (fname : string) (ignoreDirs : list string)
    (n : node) : Prop :=
  ∀ subdir es acc, n = Dir es →
    ∃ acc', traverseDirectory fname ignoreDirs subdir n acc = inr acc'
            ∧ (NoDup acc → NoDup acc')
            ∧ ∀ q, q ∈ acc' ↔ q ∈ acc ∨ found fname ignoreDirs subdir es q.

(** A manifest that can be read and parsed, with the names it declares. *)
Definition parsesTo (P : PackageParser) (H : Host)
    (filepath : string) (deps : list string) : Prop :=
  ∃ raw, loadFile H filepath = inr raw ∧ parserRaw P H raw = inr deps.

(** The names declared by one block of a parsed manifest: none when the
    block is absent. *)
Definition blockNames (k : string) (props : list (string * json))
  : list string :=
  match assoc k props with
  | Some (JObj entries) => ownKeys entries
  | _ => []
  end.

(** A block is well formed when it is absent or an object. *)
Definition blockOk (k : string) (props : list (string * json)) : Prop :=
  ∀ v, assoc k props = Some v → ∃ entries, v = JObj entries.

(** ** Collaborators of the [Global] controller *)

Record RegExp := { source : string; flags : string }.

Record Framework := {
  id : string;
  display : string;
  enabledParsers_of : option (list string);      (* f.enabledParsers *)
  perferredLocalePaths : option (list string);
  getUsageMatchRegex_of : option string → option string → list string;
}.

Record Parser := {
  parser_id : string;
  supportedExts : string;
}.

Record WorkspaceFolder := { fsPath : string; folder_name : string }.

(** [vscode.ConfigurationChangeEvent] *)
Record ConfigurationChangeEvent := {
  affectsConfiguration : string → bool;
}.

(** The values read from [Config]. [None] stands for [undefined]; an array,
    even an empty one, is truthy. *)
Module Config.
Record t := {
  enabledFrameworks : option (list string);
  enabledParsers : option (list string);
  disabled : bool;
  autoDetection : bool;
  extractAutoDetect : bool;
  _localesPaths : option (list string);
  getLocalesPathsInScope : WorkspaceFolder → option (list string);
  _regexUsageMatch : option (list string);
  _regexUsageMatchAppend : list string;
  reloadConfigs : list string;
  refreshConfigs : list string;
  usageRefreshConfigs : list string;
}.
End Config.

(** Functions and constants imported by Global.ts from modules that are
    taken as given: [../frameworks], [../parsers], [../meta], [~/utils].
    [getEnabledFrameworksByIds] is handed the stored workspace root, which
    is [undefined] ([None]) as long as no root has been stored. *)
Record Env := {
  Packages : Type;
  getPackageDependencies : string → Packages;
  getEnabledFrameworks : Packages → string → list Framework;
  getEnabledFrameworksByIds : list string → option string → list Framework;
  AvailableParsers : list Parser;
  DefaultEnabledParsers : list string;
  EXT_NAMESPACE : string;
  normalizeUsageMatchRegex : list string → list RegExp;
}.

(** Members of [Framework] read by the getters of [Global] other than
    those above; the class is declared in [../frameworks/base]. *)
Record FrameworkMembers := {
  perferredKeystyle : Framework → option string;
  namespaceDelimiter : Framework → option string;
  perferredDirStructure : Framework → option string;
}.

(** Further values of [Config]: [_keyStyle] is written by
    [requestKeyStyle]. *)
Module Settings.
Record t := {
  _keyStyle : string;
  _dirStructure : option string;
}.
End Settings.

(** [vscode.window.activeTextEditor], with the result of
    [workspace.getWorkspaceFolder(editor.document.uri)]. *)
Record TextEditor := {
  scheme : string;
  document_fsPath : string;
  getWorkspaceFolder : option WorkspaceFolder;
}.

(** What [updateRootPaths] reads from [vscode.window] and
    [vscode.workspace]. *)
Record Workbench := {
  activeTextEditor : option TextEditor;
  workspaceFolders : option (list WorkspaceFolder);
  rootPath : option string;
}.

(** ** The [Global] controller *)

Module Global.

(** A [LocaleLoader] object: [new LocaleLoader(folderPath)].  Objects are
    told apart by their allocation number. *)
Record LocaleLoader := { loader_id : nat; rootpath : string }.

(** The static fields of the class.  [_currentWorkspaceRootPath],
    [_currentActiveFilePath] and [_currentWorkspaceFolder] are declared
    without an initial value: they are [undefined] ([None]) until
    [updateRootPaths] stores a value in them.  [created] counts the loaders
    allocated so far and [disposed] holds the allocation numbers of the
    loaders on which [dispose()] has run. *)
Record State := {
  _loaders : gmap string LocaleLoader;
  _currentWorkspaceRootPath : option string;
  _currentActiveFilePath : option string;
  _nearestEnabledFrameworkPath : option string;
  _enabled : bool;
  _currentWorkspaceFolder : option WorkspaceFolder;
  enabledFrameworks : list Framework;
  _cacheUsageMatchRegex : gmap string (list RegExp);
  created : nat;
  disposed : gset nat;
}.

Definition with_loaders (m : gmap string LocaleLoader) (s : State) : State :=
  {| _loaders := m;
     _currentWorkspaceRootPath := _currentWorkspaceRootPath s;
     _currentActiveFilePath := _currentActiveFilePath s;
     _nearestEnabledFrameworkPath := _nearestEnabledFrameworkPath s;
     _enabled := _enabled s;
     _currentWorkspaceFolder := _currentWorkspaceFolder s;
     enabledFrameworks := enabledFrameworks s;
     _cacheUsageMatchRegex := _cacheUsageMatchRegex s;
     created := created s;
     disposed := disposed s |}.

Definition with_nearest (p : option string) (s : State) : State :=
  {| _loaders := _loaders s;
     _currentWorkspaceRootPath := _currentWorkspaceRootPath s;
     _currentActiveFilePath := _currentActiveFilePath s;
     _nearestEnabledFrameworkPath := p;
     _enabled := _enabled s;
     _currentWorkspaceFolder := _currentWorkspaceFolder s;
     enabledFrameworks := enabledFrameworks s;
     _cacheUsageMatchRegex := _cacheUsageMatchRegex s;
     created := created s;
     disposed := disposed s |}.

Definition with_enabled (b : bool) (s : State) : State :=
  {| _loaders := _loaders s;
     _currentWorkspaceRootPath := _currentWorkspaceRootPath s;
     _currentActiveFilePath := _currentActiveFilePath s;
     _nearestEnabledFrameworkPath := _nearestEnabledFrameworkPath s;
     _enabled := b;
     _currentWorkspaceFolder := _currentWorkspaceFolder s;
     enabledFrameworks := enabledFrameworks s;
     _cacheUsageMatchRegex := _cacheUsageMatchRegex s;
     created := created s;
     disposed := disposed s |}.

Definition with_frameworks (fs : list Framework) (s : State) : State :=
  {| _loaders := _loaders s;
     _currentWorkspaceRootPath := _currentWorkspaceRootPath s;
     _currentActiveFilePath := _currentActiveFilePath s;
     _nearestEnabledFrameworkPath := _nearestEnabledFrameworkPath s;
     _enabled := _enabled s;
     _currentWorkspaceFolder := _currentWorkspaceFolder s;
     enabledFrameworks := fs;
     _cacheUsageMatchRegex := _cacheUsageMatchRegex s;
     created := created s;
     disposed := disposed s |}.

Definition with_cache (c : gmap string (list RegExp)) (s : State) : State :=
  {| _loaders := _loaders s;
     _currentWorkspaceRootPath := _currentWorkspaceRootPath s;
     _currentActiveFilePath := _currentActiveFilePath s;
     _nearestEnabledFrameworkPath := _nearestEnabledFrameworkPath s;
     _enabled := _enabled s;
     _currentWorkspaceFolder := _currentWorkspaceFolder s;
     enabledFrameworks := enabledFrameworks s;
     _cacheUsageMatchRegex := c;
     created := created s;
     disposed := disposed s |}.

Definition with_heap (n : nat) (d : gset nat) (s : State) : State :=
  {| _loaders := _loaders s;
     _currentWorkspaceRootPath := _currentWorkspaceRootPath s;
     _currentActiveFilePath := _currentActiveFilePath s;
     _nearestEnabledFrameworkPath := _nearestEnabledFrameworkPath s;
     _enabled := _enabled s;
     _currentWorkspaceFolder := _currentWorkspaceFolder s;
     enabledFrameworks := enabledFrameworks s;
     _cacheUsageMatchRegex := _cacheUsageMatchRegex s;
     created := n;
     disposed := d |}.

(** What [update] and its helpers do to the outside: log lines, fired
    events, commands, and calls into collaborators. *)
Inductive effect :=
| LogConfigReloading (key : string)      (* Config "key" changed, reloading *)
| LogConfigChanged (key : string)        (* Config "key" changed *)
| LogReloadingLoader
| LogEnabled (value : bool)              (* Enabled / Disabled *)
| LogEnabledFrameworks (names : list string)
| LogEnabledParsers (ids : list string)
| LogBlank
| LogNotValidProject
| AnalystRefresh
| ScanFolder (folder : string)           (* getPackageDependencies(folder) *)
| SetContext (key : string) (value : bool)
| TelemetryTrackEnabled
| TelemetryUpdateUserProperties
| CheckNotification
| LoaderInit (l : LocaleLoader)          (* new LocaleLoader + init() *)
| ConfigLocalesGuideAutoSet
| FireDidChangeEnabled (value : bool)
| FireDidChangeLoader (l : option LocaleLoader).

(** How a call that may throw ends: the state and the effects at the
    moment it returns or throws, and the exception if it throws (the
    promise of an [async] method is then rejected with it). *)
Record Outcome (A : Type) := {
  state : State;
  effects : list A;
  thrown : option exn;
}.

Arguments state {A} _.
Arguments effects {A} _.
Arguments thrown {A} _.

Definition returned {A} (s : State) (effs : list A) : Outcome A :=
  {| state := s; effects := effs; thrown := None |}.

Definition rejected {A} (e : exn) (s : State) (effs : list A) : Outcome A :=
  {| state := s; effects := effs; thrown := Some e |}.

Definition resetCache (s : State) : State := with_cache ∅ s.

(** The text of an optional string: what a template literal [`${x}`], a
    property key [o[x]] and a string argument make of it; [undefined]
    reads "undefined". *)
Definition tpl (x : option string) : string :=
  match x with
  | Some v => v
  | None => "undefined"
  end.

(** Truthiness of an optional string: [undefined] and the empty string are
    falsy. *)
Definition truthy (x : option string) : bool :=
  match x with
  | Some v => negb (String.eqb v "")
  | None => false
  end.

Definition getUsageMatchRegex (E : Env) (C : Config.t)
    (languageId filepath : option string) (s : State) : list RegExp * State :=
  match Config._regexUsageMatch C with
  | Some custom =>
      match _cacheUsageMatchRegex s !! "custom" with
      | Some cached => (cached, s)
      | None =>
          let v := normalizeUsageMatchRegex E
                     (custom ++ Config._regexUsageMatchAppend C) in
          (v, with_cache (<["custom" := v]> (_cacheUsageMatchRegex s)) s)
      end
  | None =>
      let key := tpl languageId +:+ "_" +:+ tpl filepath in
      match _cacheUsageMatchRegex s !! key with
      | Some cached => (cached, s)
      | None =>
          let v := normalizeUsageMatchRegex E
                     (flat_map (fun f => getUsageMatchRegex_of f languageId filepath)
                        (enabledFrameworks s)
                      ++ Config._regexUsageMatchAppend C) in
          (v, with_cache (<[key := v]> (_cacheUsageMatchRegex s)) s)
      end
  end.

Definition localesPaths (C : Config.t) (s : State) : option (list string) :=
  let config :=
    match _currentWorkspaceFolder s with
    | Some folder => Config.getLocalesPathsInScope C folder
    | None => Config._localesPaths C
    end in
  match config with
  | Some c => Some c
  | None =>
      let config :=
        flat_map (fun f => default [] (perferredLocalePaths f))
          (enabledFrameworks s) in
      if length config =? 0 then None else Some config
  end.

(** The id list [enabledParsers] filters by, after the fallbacks. *)
Definition enabledParserIds (E : Env) (C : Config.t) (s : State) : list string :=
  let ids :=
    match Config.enabledParsers C with
    | Some l => if 0 <? length l then l
                else flat_map (fun f => default [] (enabledParsers_of f))
                       (enabledFrameworks s)
    | None => flat_map (fun f => default [] (enabledParsers_of f))
                (enabledFrameworks s)
    end in
  if length ids =? 0 then DefaultEnabledParsers E else ids.

Definition enabledParsers (E : Env) (C : Config.t) (s : State) : list Parser :=
  List.filter (fun i => includes (enabledParserIds E C s) (parser_id i))
    (AvailableParsers E).

Definition enabled (s : State) : bool := _enabled s.

(** The getter [loader]: the registry is read at the stored root, at the
    key "undefined" when no root has been stored. *)
Definition loader (s : State) : option LocaleLoader :=
  _loaders s !! tpl (_currentWorkspaceRootPath s).

Definition setEnabled (E : Env) (value : bool) (s : State)
  : State * list effect :=
  if negb (Bool.eqb (_enabled s) value) then
    (with_enabled value s,
     [LogEnabled value;
      SetContext (EXT_NAMESPACE E +:+ "-enabled") value;
      FireDidChangeEnabled value])
  else (s, []).

(** [Object.values(this._loaders)] *)
Definition loaderValues (s : State) : list LocaleLoader :=
  (map_to_list (_loaders s)).*2.

Definition unloadAll (s : State) : State :=
  let s' :=
    with_heap (created s)
      (foldr (fun l d => {[loader_id l]} ∪ d) (disposed s) (loaderValues s)) s in
  with_loaders ∅ s'.

(** [initLoader(folderPath, reload)]; the caller hands over the stored
    root, set or not. *)
Definition initLoader (folderPath : option string) (reload : bool) (s : State)
  : State * list effect :=
  match folderPath with
  | None => (s, [])
  | Some folderPath =>
      if String.eqb folderPath "" then (s, [])
      else if bool_decide (is_Some (_loaders s !! folderPath)) && negb reload then
        (s, [CheckNotification])
      else
        let loader := {| loader_id := created s; rootpath := folderPath |} in
        (with_loaders (<[folderPath := loader]> (_loaders s))
           (with_heap (S (created s)) (disposed s) s),
         [CheckNotification; LoaderInit loader])
  end.

(** The folders tried by [findNearestEnabledFrameworks], in order. *)
Definition candidateFolders (root current : string) : list string :=
  let subfolders := Path.split (Path.relative root current) in
  map (fun i => Path.join (root :: take i subfolders))
    (rev (seq 1 (length subfolders)))
  ++ [root].

(** The frameworks that a folder activates:
    [getEnabledFrameworks(getPackageDependencies(folder), folder)]. *)
Definition activated (E : Env) (folder : string) : list Framework :=
  getEnabledFrameworks E (getPackageDependencies E folder) folder.

(** The [for (const folder of folders)] loop; the second component lists
    the folders whose package dependencies were loaded. *)
Fixpoint firstEnabled (E : Env) (folders : list string)
  : (list Framework * option string) * list string :=
  match folders with
  | [] => (([], None), [])
  | folder :: rest =>
      let packages := getPackageDependencies E folder in
      let frameworks := getEnabledFrameworks E packages folder in
      if 0 <? length frameworks then ((frameworks, Some folder), [folder])
      else
        let '(r, visited) := firstEnabled E rest in
        (r, folder :: visited)
  end.

(** [findNearestEnabledFrameworks(root, current)].  [update] passes the two
    stored paths, which may be unset.  On an unset [current] the method
    call [current.startsWith] is a TypeError.  An unset [root] is read by
    [startsWith] as the text "undefined"; should [current] begin with it,
    [path.relative] rejects the unset [root] with a TypeError.  Both happen
    before any folder is examined. *)
Definition findNearestEnabledFrameworks (E : Env) (root current : option string)
  : throws ((list Framework * option string) * list string) :=
  match current with
  | None => throw TypeError
  | Some current =>
      if negb (String.prefix (tpl root) current) then ret (([], None), [])
      else
        match root with
        | None => throw TypeError
        | Some root => ret (firstEnabled E (candidateFolders root current))
        end
  end.

(** First entry of an allow-list whose key the event affects
    ([for ... if (event.affectsConfiguration(key)) ... break]). *)
Definition affectedKey (E : Env) (event : ConfigurationChangeEvent)
    (configs : list string) : option string :=
  List.find (affectsConfiguration event)
    (map (fun config => EXT_NAMESPACE E +:+ "." +:+ config) configs).

(** The assignment of [enabledFrameworks] (and, on the nearest-folder path,
    of [_nearestEnabledFrameworkPath]) in [update]; nothing is assigned
    when [findNearestEnabledFrameworks] throws. *)
Definition resolveFrameworks (E : Env) (C : Config.t) (s : State)
  : throws (State * list effect) :=
  match Config.enabledFrameworks C with
  | None =>
      let? found :=
        findNearestEnabledFrameworks E (_currentWorkspaceRootPath s)
          (_currentActiveFilePath s) in
      let '((fws, nearest), visited) := found in
      ret (with_nearest nearest (with_frameworks fws s), map ScanFolder visited)
  | Some frameworks =>
      ret (with_frameworks
             (getEnabledFrameworksByIds E frameworks (_currentWorkspaceRootPath s))
             s,
           [])
  end.

Definition isValidProject (E : Env) (C : Config.t) (s : State) : bool :=
  (0 <? length (enabledFrameworks s)) && (0 <? length (enabledParsers E C s)).

Definition hasLocalesSet (C : Config.t) (s : State) : bool :=
  bool_decide (is_Some (localesPaths C s)).

Definition shouldEnabled (E : Env) (C : Config.t) (s : State) : bool :=
  negb (Config.disabled C) && isValidProject E C s && hasLocalesSet C s.

(** The part of [update] that follows the event filter.  An exception of
    [findNearestEnabledFrameworks] leaves [update] at once: [setEnabled] is
    not reached, no loader is created or disposed and loader-changed is not
    fired. *)
Definition refresh (E : Env) (C : Config.t) (reload : bool) (s : State)
  : Outcome effect :=
  match resolveFrameworks E C s with
  | inl e => rejected e s []
  | inr (s, scanned) =>
      let isValidProject := isValidProject E C s in
      let hasLocalesSet := hasLocalesSet C s in
      let '(s, fired) := setEnabled E (shouldEnabled E C s) s in
      let '(s, effs) :=
        if enabled s then
          let announced :=
            [LogEnabledFrameworks (map display (enabledFrameworks s));
             LogEnabledParsers (map parser_id (enabledParsers E C s));
             LogBlank;
             SetContext "i18n-ally.extract.autoDetect" (Config.extractAutoDetect C);
             TelemetryTrackEnabled;
             TelemetryUpdateUserProperties] in
          let '(s, inits) := initLoader (_currentWorkspaceRootPath s) reload s in
          (s, announced ++ inits)
        else
          (unloadAll s,
           if negb (Config.disabled C) then
             (if negb isValidProject && hasLocalesSet then [LogNotValidProject]
              else [])
             ++ (if isValidProject && negb hasLocalesSet && Config.autoDetection C
                 then [ConfigLocalesGuideAutoSet] else [])
           else []) in
      returned s (scanned ++ fired ++ effs ++ [FireDidChangeLoader (loader s)])
  end.

(** Whether the event filter at the head of [update] returns early: an event
    is given and it affects no key of [reloadConfigs] or [refreshConfigs]. *)
Definition ignored (E : Env) (C : Config.t)
    (event : option ConfigurationChangeEvent) : bool :=
  match event with
  | None => false
  | Some event =>
      negb (bool_decide (is_Some (affectedKey E event (Config.reloadConfigs C)))
            || bool_decide (is_Some (affectedKey E event (Config.refreshConfigs C))))
  end.

(** The value of the local [reload] once the event filter has run. *)
Definition reloadRequested (E : Env) (C : Config.t)
    (event : option ConfigurationChangeEvent) : bool :=
  match event with
  | None => false
  | Some event =>
      bool_decide (is_Some (affectedKey E event (Config.reloadConfigs C)))
  end.

(** [Global.update({ event })].  The two other destructured parameters are
    not read by the body.  What the event filter has logged stays logged
    when the rest of the call throws. *)
Definition update (E : Env) (C : Config.t)
    (event : option ConfigurationChangeEvent) (s : State)
  : Outcome effect :=
  let s := resetCache s in
  match event with
  | None => refresh E C false s
  | Some event =>
      let hitReload := affectedKey E event (Config.reloadConfigs C) in
      let hitRefresh := affectedKey E event (Config.refreshConfigs C) in
      let hitUsage := affectedKey E event (Config.usageRefreshConfigs C) in
      let reload := bool_decide (is_Some hitReload) in
      let affected := reload || bool_decide (is_Some hitRefresh) in
      let logs :=
        match hitReload with Some key => [LogConfigReloading key] | None => [] end
        ++ match hitRefresh with Some key => [LogConfigChanged key] | None => [] end
        ++ match hitUsage with
           | Some key => [AnalystRefresh; LogConfigChanged key]
           | None => []
           end in
      if negb affected then returned s logs
      else
        let r := refresh E C reload s in
        {| state := state r;
           effects :=
             logs ++ (if reload then [LogReloadingLoader] else []) ++ effects r;
           thrown := thrown r |}
  end.

(** The state that [update] leaves once the frameworks have been assigned,
    [s] being the state right after the assignment. *)
Definition refreshed (E : Env) (C : Config.t) (reload : bool) (s : State)
  : State :=
  if shouldEnabled E C s then
    (initLoader (_currentWorkspaceRootPath s) reload (with_enabled true s)).1
  else unloadAll (with_enabled false s).

(** The events delivered to subscribers of [onDidChangeEnabled] and
    [onDidChangeLoader]. *)
Definition isNotification (e : effect) : bool :=
  match e with
  | FireDidChangeEnabled _ | FireDidChangeLoader _ => true
  | _ => false
  end.

(** The cached entry of the override, when there is one, is the value
    computed from the configuration in force. *)
Definition customCacheFresh (E : Env) (C : Config.t) (s : State) : Prop :=
  ∀ custom cached,
    Config._regexUsageMatch C = Some custom →
    _cacheUsageMatchRegex s !! "custom" = Some cached →
    cached = normalizeUsageMatchRegex E (custom ++ Config._regexUsageMatchAppend C).

(** A state such as the part of [update] that follows the event filter
    leaves behind. *)
Definition settled (E : Env) (C : Config.t) (s : State) : Prop :=
  (∃ scanned, resolveFrameworks E C s = inr (s, scanned))
  ∧ _enabled s = shouldEnabled E C s
  ∧ _cacheUsageMatchRegex s = ∅
  ∧ (if _enabled s
     then ∀ root, _currentWorkspaceRootPath s = Some root → root ≠ "" →
                  is_Some (_loaders s !! root)
     else _loaders s = ∅).

(** *** Further members of [Global] *)

(** The loop of [getNamespaceDelimiter] over the frameworks. *)
Fixpoint firstNamespaceDelimiter (M : FrameworkMembers) (fs : list Framework)
  : string :=
  match fs with
  | [] => "."
  | f :: rest =>
      if truthy (namespaceDelimiter M f)
      then default "." (namespaceDelimiter M f)
      else firstNamespaceDelimiter M rest
  end.

Definition getNamespaceDelimiter (M : FrameworkMembers) (s : State) : string :=
  firstNamespaceDelimiter M (enabledFrameworks s).

(** The getter [dirStructure]: the loop has no [break], every framework
    with a preference overwrites [config] in turn. *)
Definition dirStructure (M : FrameworkMembers) (X : Settings.t) (s : State)
  : option string :=
  let config := Settings._dirStructure X in
  if negb (truthy config) || bool_decide (config = Some "auto") then
    fold_left
      (fun config f =>
         if truthy (perferredDirStructure M f)
         then perferredDirStructure M f else config)
      (enabledFrameworks s) config
  else config.

(** The two items offered by the quick pick of [requestKeyStyle]. *)
Inductive KeyStyleItem := ItemNested | ItemFlat.

Definition item_value (i : KeyStyleItem) : string :=
  match i with
  | ItemNested => "nested"
  | ItemFlat => "flat"
  end.

(** The loop of [requestKeyStyle] over the frameworks. *)
Fixpoint firstKeystyle (M : FrameworkMembers) (fs : list Framework)
  : option string :=
  match fs with
  | [] => None
  | f :: rest =>
      if truthy (perferredKeystyle M f)
         && negb (bool_decide (perferredKeystyle M f = Some "auto"))
      then perferredKeystyle M f
      else firstKeystyle M rest
  end.

(** A framework whose key-style preference the loop of [requestKeyStyle]
    passes over: it has none, or it is "auto". *)
Definition noKeystyle (M : FrameworkMembers) (f : Framework) : Prop :=
  truthy (perferredKeystyle M f) = false ∨ perferredKeystyle M f = Some "auto".

(** [requestKeyStyle()]; [picked] is what [window.showQuickPick] resolves
    to if it is reached ([None] when the prompt is dismissed).  The result
    is the key style and the settings as the call leaves them. *)
Definition requestKeyStyle (M : FrameworkMembers) (X : Settings.t)
    (picked : option KeyStyleItem) (s : State) : string * Settings.t :=
  if negb (String.eqb (Settings._keyStyle X) "auto") then
    (Settings._keyStyle X, X)
  else
    match firstKeystyle M (enabledFrameworks s) with
    | Some style => (style, X)
    | None =>
        match picked with
        | None =>
            ("nested",
             {| Settings._keyStyle := "nested";
                Settings._dirStructure := Settings._dirStructure X |})
        | Some result =>
            (item_value result,
             {| Settings._keyStyle := item_value result;
                Settings._dirStructure := Settings._dirStructure X |})
        end
    end.

Definition with_root (p : string) (s : State) : State :=
  {| _loaders := _loaders s;
     _currentWorkspaceRootPath := Some p;
     _currentActiveFilePath := _currentActiveFilePath s;
     _nearestEnabledFrameworkPath := _nearestEnabledFrameworkPath s;
     _enabled := _enabled s;
     _currentWorkspaceFolder := _currentWorkspaceFolder s;
     enabledFrameworks := enabledFrameworks s;
     _cacheUsageMatchRegex := _cacheUsageMatchRegex s;
     created := created s;
     disposed := disposed s |}.

Definition with_active (p : string) (s : State) : State :=
  {| _loaders := _loaders s;
     _currentWorkspaceRootPath := _currentWorkspaceRootPath s;
     _currentActiveFilePath := Some p;
     _nearestEnabledFrameworkPath := _nearestEnabledFrameworkPath s;
     _enabled := _enabled s;
     _currentWorkspaceFolder := _currentWorkspaceFolder s;
     enabledFrameworks := enabledFrameworks s;
     _cacheUsageMatchRegex := _cacheUsageMatchRegex s;
     created := created s;
     disposed := disposed s |}.

Definition with_folder (f : option WorkspaceFolder) (s : State) : State :=
  {| _loaders := _loaders s;
     _currentWorkspaceRootPath := _currentWorkspaceRootPath s;
     _currentActiveFilePath := _currentActiveFilePath s;
     _nearestEnabledFrameworkPath := _nearestEnabledFrameworkPath s;
     _enabled := _enabled s;
     _currentWorkspaceFolder := f;
     enabledFrameworks := enabledFrameworks s;
     _cacheUsageMatchRegex := _cacheUsageMatchRegex s;
     created := created s;
     disposed := disposed s |}.

(** What [updateRootPaths] does to the outside; [Updated] carries the
    effects of the [update({})] it awaits. *)
Inductive rootEffect :=
| LogDivider
| LogWorkspaceRootChanged (root : string)
| FireDidChangeCurrentWorkspaceRootPath (root : string)
| ReviewsInit (root : string)
| Updated (effs : list effect).

(** The second half of [updateRootPaths], from the comparison of the paths
    found with the stored ones on.  A local path that has not been
    determined is the empty string, as in the source; a stored path that
    has never been assigned differs from every path found.  The call
    throws when the [update({})] it awaits does. *)
Definition applyRootPaths (E : Env) (C : Config.t)
    (currentWorkspaceRootPath currentActiveFilePath : string) (s : State)
  : Outcome rootEffect :=
  let rootChanged :=
    negb (String.eqb currentWorkspaceRootPath "")
    && negb (bool_decide
               (_currentWorkspaceRootPath s = Some currentWorkspaceRootPath)) in
  let activeChanged :=
    negb (String.eqb currentActiveFilePath "")
    && negb (bool_decide
               (_currentActiveFilePath s = Some currentActiveFilePath)) in
  let s := if rootChanged then with_root currentWorkspaceRootPath s else s in
  let announced :=
    if rootChanged then
      [LogDivider;
       LogWorkspaceRootChanged currentWorkspaceRootPath;
       FireDidChangeCurrentWorkspaceRootPath currentWorkspaceRootPath;
       ReviewsInit currentWorkspaceRootPath]
    else [] in
  let s := if activeChanged then with_active currentActiveFilePath s else s in
  if rootChanged || activeChanged then
    let r := update E C None s in
    {| state := state r;
       effects := announced ++ [Updated (effects r)];
       thrown := thrown r |}
  else returned s announced.

(** [updateRootPaths()] *)
Definition updateRootPaths (E : Env) (C : Config.t) (W : Workbench) (s : State)
  : Outcome rootEffect :=
  match activeTextEditor W, workspaceFolders W with
  | Some editor, Some (_ :: _) =>
      let '(s, currentWorkspaceRootPath, currentActiveFilePath) :=
        if String.eqb (scheme editor) "file" then
          let '(s, root) :=
            match getWorkspaceFolder editor with
            | Some folder => (with_folder (Some folder) s, fsPath folder)
            | None => (s, "")
            end in
          (s, root, Path.dirname (document_fsPath editor))
        else (s, "", "") in
      let currentWorkspaceRootPath :=
        if String.eqb currentWorkspaceRootPath "" && truthy (rootPath W)
        then default "" (rootPath W) else currentWorkspaceRootPath in
      applyRootPaths E C currentWorkspaceRootPath currentActiveFilePath s
  | _, _ => returned s []
  end.

(** *** Statements about the registry and the effects of [update] *)

(** Every loader of the registry is filed under its own root, was
    allocated before now and has not been disposed; no loader is filed
    twice; only allocated loaders have been disposed. *)
Definition registryOk (s : State) : Prop :=
  (∀ root l, _loaders s !! root = Some l →
     rootpath l = root ∧ loader_id l < created s ∧ loader_id l ∉ disposed s)
  ∧ (∀ root1 root2 l1 l2,
       _loaders s !! root1 = Some l1 → _loaders s !! root2 = Some l2 →
       loader_id l1 = loader_id l2 → root1 = root2)
  ∧ (∀ n, n ∈ disposed s → n < created s).

(** The lines logged when [update] finds the controller enabled. *)
Definition announcedEnabled (E : Env) (C : Config.t) (s : State) : list effect :=
  [LogEnabledFrameworks (map display (enabledFrameworks s));
   LogEnabledParsers (map parser_id (enabledParsers E C s));
   LogBlank;
   SetContext "i18n-ally.extract.autoDetect" (Config.extractAutoDetect C);
   TelemetryTrackEnabled;
   TelemetryUpdateUserProperties].

(** What [update] does besides [unloadAll] when it finds the controller
    disabled. *)
Definition announcedDisabled (E : Env) (C : Config.t) (s : State) : list effect :=
  if negb (Config.disabled C) then
    (if negb (isValidProject E C s) && hasLocalesSet C s
     then [LogNotValidProject] else [])
    ++ (if isValidProject E C s && negb (hasLocalesSet C s)
           && Config.autoDetection C
        then [ConfigLocalesGuideAutoSet] else [])
  else [].

(** The lines logged by the event filter of [update]. *)
Definition eventLogs (E : Env) (C : Config.t) (event : ConfigurationChangeEvent)
  : list effect :=
  match affectedKey E event (Config.reloadConfigs C) with
  | Some key => [LogConfigReloading key]
  | None => []
  end
  ++ match affectedKey E event (Config.refreshConfigs C) with
     | Some key => [LogConfigChanged key]
     | None => []
     end
  ++ match affectedKey E event (Config.usageRefreshConfigs C) with
     | Some key => [AnalystRefresh; LogConfigChanged key]
     | None => []
     end.

(** The configured locale paths that [localesPaths] looks at first. *)
Definition scopedLocalesPaths (C : Config.t) (s : State) : option (list string) :=
  match _currentWorkspaceFolder s with
  | Some folder => Config.getLocalesPathsInScope C folder
  | None => Config._localesPaths C
  end.

(** The cache key of [getUsageMatchRegex] when no override is set. *)
Definition usageKey (languageId filepath : option string) : string :=
  tpl languageId +:+ "_" +:+ tpl filepath.

(** The property names that the cache object, a plain [{}], inherits from
    [Object.prototype].  Read at one of them the object answers with the
    inherited member, which is truthy, so nothing is computed or stored
    under such a key. *)
Definition inheritedNames : list string :=
  ["__proto__"; "__defineGetter__"; "__defineSetter__"; "__lookupGetter__";
   "__lookupSetter__"; "constructor"; "hasOwnProperty"; "isPrototypeOf";
   "propertyIsEnumerable"; "toLocaleString"; "toString"; "valueOf"].

(** What the event filter of [update] logs for the event it is given,
    the line that announces a reload included. *)
Definition filterEffects (E : Env) (C : Config.t)
    (event : option ConfigurationChangeEvent) : list effect :=
  match event with
  | None => []
  | Some ev =>
      eventLogs E C ev
      ++ (if reloadRequested E C event then [LogReloadingLoader] else [])
  end.

(** What [update] does once the frameworks have been assigned, [s] being
    the state right after the assignment. *)
Definition tailEffects (E : Env) (C : Config.t) (reload : bool) (s : State)
  : list effect :=
  (setEnabled E (shouldEnabled E C s) s).2
  ++ (if shouldEnabled E C s
      then announcedEnabled E C s
           ++ (initLoader (_currentWorkspaceRootPath s) reload
                 (with_enabled true s)).2
      else announcedDisabled E C s)
  ++ [FireDidChangeLoader (loader (refreshed E C reload s))].

End Global.

(** ** A file system reached by path, and a sample workspace

    The definitions below tie the path strings to a directory tree, so that
    the scanner and the controller can be run together on concrete
    workspaces. *)

Fixpoint lookupPath (n : node) (segs : list string) : option node :=
  match segs with
  | [] => Some n
  | seg :: rest =>
      match n with
      | Dir es =>
          match List.find (fun e => String.eqb (fst e) seg) es with
          | Some (_, child) => lookupPath child rest
          | None => None
          end
      | File _ => None
      end
  end.

(** The object found at an absolute path of the disk [disk]. *)
Definition nodeAt (disk : node) (p : string) : option node :=
  lookupPath disk (Path.resolve_segs p).

Definition readSyncOn (disk : node) (p : string) : throws string :=
  match nodeAt disk p with
  | Some (File content) => ret content
  | Some (Dir _) => throw (FsError "EISDIR")
  | None => throw (FsError "ENOENT")
  end.

(** [P.load(root)] against a disk. *)
Definition loadAt (disk : node) (P : PackageParser) (H : Host) (root : string)
  : throws (option (list string)) * list log_msg :=
  match nodeAt disk root with
  | Some n => load P H root n
  | None => (throw (FsError "ENOENT"), [])
  end.

Module Sample.

Definition dq : string := String (ascii_of_nat 34) "".

(** [{"dependencies":{"vue-i18n":"1.0"}}] *)
Definition vueManifest : string :=
  "{" +:+ dq +:+ "dependencies" +:+ dq +:+ ":{" +:+ dq +:+ "vue-i18n" +:+ dq
  +:+ ":" +:+ dq +:+ "1.0" +:+ dq +:+ "}}".

(** [JSON.parse] on the manifests of the sample disk; any other text is
    rejected. *)
Definition parse (raw : string) : throws json :=
  if String.eqb raw "{}" then ret (JObj [])
  else if String.eqb raw vueManifest then
    ret (JObj [("dependencies", JObj [("vue-i18n", JStr "1.0")])])
  else throw SyntaxError.

(** The workspace folder, mounted at /ws. *)
Definition workspace : node :=
  Dir [("package.json", File "{}");
       ("app", Dir [("package.json", File vueManifest);
                    ("src", Dir [("x", Dir [])]);
                    ("node_modules",
                       Dir [("dep", Dir [("package.json", File "{}")])])]);
       ("lib", Dir [])].

(** A project one of whose manifests is malformed, mounted at /legacy. *)
Definition legacy : node :=
  Dir [("package.json", File vueManifest);
       ("docs", Dir [("package.json", File "{oops")])].

(** /ws is the workspace; /wsx is a sibling whose name extends "ws". *)
Definition disk : node :=
  Dir [("ws", workspace);
       ("wsx", Dir [("package.json", File vueManifest)]);
       ("legacy", legacy)].

Definition host : Host := {|
  JSON_parse := parse;
  File_readSync := readSyncOn disk;
|}.

Definition vue : Framework := {|
  id := "vue";
  display := "Vue";
  enabledParsers_of := None;
  perferredLocalePaths := Some ["locales"];
  getUsageMatchRegex_of := fun _ _ => ["\$t\(({key})\)"];
|}.

Definition jsonParser : Parser := {| parser_id := "json"; supportedExts := "json" |}.
Definition yamlParser : Parser := {| parser_id := "yaml"; supportedExts := "ya?ml" |}.

(** A registry with the single framework [vue], activated by the
    dependency "vue-i18n" of a package.json found under the folder. *)
Definition env : Env := {|
  Packages := throws (option (list string));
  getPackageDependencies := fun folder =>
    fst (loadAt disk PackageJSONParser host folder);
  getEnabledFrameworks := fun packages _ =>
    match packages with
    | inr (Some deps) => if includes deps "vue-i18n" then [vue] else []
    | _ => []
    end;
  getEnabledFrameworksByIds := fun ids _ =>
    if includes ids "vue" then [vue] else [];
  AvailableParsers := [jsonParser; yamlParser];
  DefaultEnabledParsers := ["json"];
  EXT_NAMESPACE := "i18n-ally";
  normalizeUsageMatchRegex := map (fun src => {| source := src; flags := "gm" |});
|}.

Definition config : Config.t := {|
  Config.enabledFrameworks := None;
  Config.enabledParsers := None;
  Config.disabled := false;
  Config.autoDetection := true;
  Config.extractAutoDetect := false;
  Config._localesPaths := None;
  Config.getLocalesPathsInScope := fun _ => None;
  Config._regexUsageMatch := None;
  Config._regexUsageMatchAppend := [];
  Config.reloadConfigs := ["disabled"; "localesPaths"; "enabledFrameworks"; "enabledParsers"];
  Config.refreshConfigs := ["sourceLanguage"; "regex.usageMatch"];
  Config.usageRefreshConfigs := ["keysInUse"];
|}.

(** The controller once the editor shows a file of /ws/app/src/x. *)
Definition opened : Global.State := {|
  Global._loaders := ∅;
  Global._currentWorkspaceRootPath := Some "/ws";
  Global._currentActiveFilePath := Some "/ws/app/src/x";
  Global._nearestEnabledFrameworkPath := None;
  Global._enabled := false;
  Global._currentWorkspaceFolder := None;
  Global.enabledFrameworks := [];
  Global._cacheUsageMatchRegex := ∅;
  Global.created := 0;
  Global.disposed := ∅;
|}.

(** A configuration change that touches the given keys. *)
Definition changeOf (keys : list string) : ConfigurationChangeEvent :=
  {| affectsConfiguration := includes keys |}.

(** The same configuration with the extension switched off. *)
Definition configOff : Config.t := {|
  Config.enabledFrameworks := None;
  Config.enabledParsers := None;
  Config.disabled := true;
  Config.autoDetection := true;
  Config.extractAutoDetect := false;
  Config._localesPaths := None;
  Config.getLocalesPathsInScope := fun _ => None;
  Config._regexUsageMatch := None;
  Config._regexUsageMatchAppend := [];
  Config.reloadConfigs := ["disabled"; "localesPaths"; "enabledFrameworks"; "enabledParsers"];
  Config.refreshConfigs := ["sourceLanguage"; "regex.usageMatch"];
  Config.usageRefreshConfigs := ["keysInUse"];
|}.

(** The same configuration with an explicit usage-match override. *)
Definition configCustom : Config.t := {|
  Config.enabledFrameworks := None;
  Config.enabledParsers := None;
  Config.disabled := false;
  Config.autoDetection := true;
  Config.extractAutoDetect := false;
  Config._localesPaths := None;
  Config.getLocalesPathsInScope := fun _ => None;
  Config._regexUsageMatch := Some ["translate\(({key})\)"];
  Config._regexUsageMatchAppend := ["tr\(({key})\)"];
  Config.reloadConfigs := ["disabled"; "localesPaths"; "enabledFrameworks"; "enabledParsers"];
  Config.refreshConfigs := ["sourceLanguage"; "regex.usageMatch"];
  Config.usageRefreshConfigs := ["keysInUse"];
|}.

(** The controller after its first [update({})]. *)
Definition running : Global.State :=
  Global.state (Global.update env config None opened).

(** ... and after one usage-match query for a Vue file. *)
Definition queried : Global.State :=
  (Global.getUsageMatchRegex env config (Some "vue")
     (Some "/ws/app/src/x/App.vue") running).2.

Definition usageChange : ConfigurationChangeEvent :=
  changeOf ["i18n-ally.keysInUse"].

Definition unrelatedChange : ConfigurationChangeEvent :=
  changeOf ["i18n-ally.sortKeys"].

Definition reloadChange : ConfigurationChangeEvent :=
  changeOf ["i18n-ally.disabled"].

(** Members of the sample framework that the further getters read. *)
Definition members : FrameworkMembers := {|
  perferredKeystyle := fun _ => Some "nested";
  namespaceDelimiter := fun _ => Some ".";
  perferredDirStructure := fun _ => Some "file";
|}.

(** A second framework, and members that tell the two apart. *)
Definition react : Framework := {|
  id := "react";
  display := "React";
  enabledParsers_of := Some ["yaml"];
  perferredLocalePaths := None;
  getUsageMatchRegex_of := fun languageId _ =>
    match languageId with
    | Some "undefined" => ["never\(({key})\)"]
    | _ => ["t\(({key})\)"]
    end;
|}.

Definition membersById : FrameworkMembers := {|
  perferredKeystyle := fun f =>
    if String.eqb (id f) "vue" then Some "auto" else Some "flat";
  namespaceDelimiter := fun f =>
    if String.eqb (id f) "vue" then Some "" else Some ":";
  perferredDirStructure := fun f =>
    if String.eqb (id f) "vue" then Some "file" else Some "dir";
|}.

Definition settings : Settings.t := {|
  Settings._keyStyle := "auto";
  Settings._dirStructure := None;
|}.

(** The configuration with a framework list set by hand. *)
Definition configPinned : Config.t := {|
  Config.enabledFrameworks := Some ["vue"];
  Config.enabledParsers := Some ["yaml"; "json"];
  Config.disabled := false;
  Config.autoDetection := true;
  Config.extractAutoDetect := false;
  Config._localesPaths := Some [];
  Config.getLocalesPathsInScope := fun _ => None;
  Config._regexUsageMatch := None;
  Config._regexUsageMatchAppend := [];
  Config.reloadConfigs := ["disabled"; "localesPaths"; "enabledFrameworks"; "enabledParsers"];
  Config.refreshConfigs := ["sourceLanguage"; "regex.usageMatch"];
  Config.usageRefreshConfigs := ["keysInUse"];
|}.

Definition wsFolder : WorkspaceFolder :=
  {| fsPath := "/ws"; folder_name := "ws" |}.

(** The editor shows /ws/app/src/x/App.vue. *)
Definition workbench : Workbench := {|
  activeTextEditor :=
    Some {| scheme := "file";
            document_fsPath := "/ws/app/src/x/App.vue";
            getWorkspaceFolder := Some wsFolder |};
  workspaceFolders := Some [wsFolder];
  rootPath := Some "/ws";
|}.

(** The controller before any editor has been seen. *)
Definition fresh : Global.State := {|
  Global._loaders := ∅;
  Global._currentWorkspaceRootPath := None;
  Global._currentActiveFilePath := None;
  Global._nearestEnabledFrameworkPath := None;
  Global._enabled := false;
  Global._currentWorkspaceFolder := None;
  Global.enabledFrameworks := [];
  Global._cacheUsageMatchRegex := ∅;
  Global.created := 0;
  Global.disposed := ∅;
|}.

(** The editor shows an untitled document; /ws is the workspace. *)
Definition untitled : Workbench := {|
  activeTextEditor :=
    Some {| scheme := "untitled";
            document_fsPath := "Untitled-1";
            getWorkspaceFolder := None |};
  workspaceFolders := Some [wsFolder];
  rootPath := Some "/ws";
|}.

(** The controller started on the untitled document, with the framework
    list set by hand. *)
Definition pinned : Global.State :=
  Global.state (Global.updateRootPaths env configPinned untitled fresh).

(** [configPinned] once the framework list has been removed and the
    extension switched off. *)
Definition configUnpinnedOff : Config.t := {|
  Config.enabledFrameworks := None;
  Config.enabledParsers := Some ["yaml"; "json"];
  Config.disabled := true;
  Config.autoDetection := true;
  Config.extractAutoDetect := false;
  Config._localesPaths := Some [];
  Config.getLocalesPathsInScope := fun _ => None;
  Config._regexUsageMatch := None;
  Config._regexUsageMatchAppend := [];
  Config.reloadConfigs := ["disabled"; "localesPaths"; "enabledFrameworks"; "enabledParsers"];
  Config.refreshConfigs := ["sourceLanguage"; "regex.usageMatch"];
  Config.usageRefreshConfigs := ["keysInUse"];
|}.

(** The change of the settings that leads from [configPinned] to
    [configUnpinnedOff]. *)
Definition unpinChange : ConfigurationChangeEvent :=
  changeOf ["i18n-ally.enabledFrameworks"; "i18n-ally.disabled"].

(** [configPinned] once the framework list alone has been removed. *)
Definition configUnpinned : Config.t := {|
  Config.enabledFrameworks := None;
  Config.enabledParsers := Some ["yaml"; "json"];
  Config.disabled := false;
  Config.autoDetection := true;
  Config.extractAutoDetect := false;
  Config._localesPaths := Some [];
  Config.getLocalesPathsInScope := fun _ => None;
  Config._regexUsageMatch := None;
  Config._regexUsageMatchAppend := [];
  Config.reloadConfigs := ["disabled"; "localesPaths"; "enabledFrameworks"; "enabledParsers"];
  Config.refreshConfigs := ["sourceLanguage"; "regex.usageMatch"];
  Config.usageRefreshConfigs := ["keysInUse"];
|}.

End Sample.

(** * Properties of the path functions on well-formed absolute paths *)

Section PathFacts.
Import Path.

Lemma append_String (c : ascii) (a b : string) :
  String c a +:+ b = String c (a +:+ b).
Proof. reflexivity. Qed.

Lemma append_empty_l (b : string) : "" +:+ b = b.
Proof. reflexivity. Qed.

Lemma append_empty_r (a : string) : a +:+ "" = a.
Proof. induction a as [|c a IH]; [done |]. by rewrite append_String, IH. Qed.

Lemma append_assoc (a b c : string) : (a +:+ b) +:+ c = a +:+ (b +:+ c).
Proof. induction a as [|x a IH]; [done |]. by rewrite !append_String, IH. Qed.

Lemma split_nonempty (s : string) : split s ≠ [].
Proof.
  destruct s as [|c s]; simpl; [done |].
  destruct (Ascii.eqb c sep); [done |]. by destruct (split s).
Qed.

Lemma split_app_sep (a b : string) :
  split (a +:+ String sep b) = split a ++ split b.
Proof.
  induction a as [|c a IH].
  - reflexivity.
  - rewrite append_String. simpl. destruct (Ascii.eqb c sep).
    + by rewrite IH.
    + rewrite IH. pose proof (split_nonempty a). by destruct (split a).
Qed.

Lemma split_name (s : string) : hasSep s = false → split s = [s].
Proof.
  induction s as [|c s IH]; simpl; [done |].
  intros H. apply orb_false_iff in H as [Hc Hs]. by rewrite Hc, IH.
Qed.

Lemma isName_spec (seg : string) :
  isName seg = true →
  seg ≠ "" ∧ seg ≠ "." ∧ seg ≠ ".." ∧ hasSep seg = false.
Proof.
  unfold isName. rewrite !andb_true_iff, !negb_true_iff.
  intros [[[H1 H2] H3] H4]. split_and!; try done.
  all: by apply String.eqb_neq.
Qed.

Lemma split_join_sep (l : list string) :
  names l → l ≠ [] → split (join_sep l) = l.
Proof.
  induction 1 as [|x l Hx Hl IH]; [done |]. intros _.
  apply isName_spec in Hx as (_ & _ & _ & Hx).
  destruct l as [|y l]; simpl.
  - by apply split_name.
  - rewrite split_app_sep, split_name by done. simpl. f_equal. by apply IH.
Qed.

Lemma normalizeString_names (allow : bool) (l res : list string) :
  names l → normalizeString allow l res = rev res ++ l.
Proof.
  intros Hl. revert res. induction Hl as [|x l Hx Hl IH]; intros res; simpl.
  - by rewrite app_nil_r.
  - apply isName_spec in Hx as (H1 & H2 & H3 & _).
    apply String.eqb_neq in H1, H2, H3. rewrite H1, H2, H3. simpl.
    rewrite IH. simpl. by rewrite <- app_assoc.
Qed.

Lemma split_absPath (segs : list string) :
  names segs →
  split (absPath segs) = "" :: (if decide (segs = []) then [""] else segs).
Proof.
  intros Hs. unfold absPath. simpl. f_equal.
  destruct (decide (segs = [])) as [-> | Hne]; [done |].
  by apply split_join_sep.
Qed.

Lemma resolve_segs_absPath (segs : list string) :
  names segs → resolve_segs (absPath segs) = segs.
Proof.
  intros Hs. unfold resolve_segs. rewrite split_absPath by done.
  destruct (decide (segs = [])) as [-> | Hne]; [done |].
  simpl. by rewrite normalizeString_names.
Qed.

Lemma strip_common_app (rs ds : list string) :
  strip_common rs (rs ++ ds) = ([], ds).
Proof.
  induction rs as [|x rs IH]; simpl.
  - by destruct ds.
  - by rewrite String.eqb_refl.
Qed.

Lemma relative_absPath (rs ds : list string) :
  names rs → names ds →
  relative (absPath rs) (absPath (rs ++ ds)) = join_sep ds.
Proof.
  intros Hrs Hds. unfold relative.
  assert (Hall : names (rs ++ ds)) by (by apply Forall_app).
  destruct (String.eqb (absPath rs) (absPath (rs ++ ds))) eqn:Heq.
  - apply String.eqb_eq in Heq.
    apply (f_equal resolve_segs) in Heq.
    rewrite !resolve_segs_absPath in Heq by done.
    rewrite <- (app_nil_r rs) in Heq at 1. apply app_inv_head in Heq.
    by subst ds.
  - rewrite !resolve_segs_absPath by done. by rewrite strip_common_app.
Qed.


Lemma append_nonempty_r (a b : string) : b ≠ "" → a +:+ b ≠ "".
Proof. intros Hb. destruct a; [done | by rewrite append_String]. Qed.

Lemma endsWithSep_app (a b : string) :
  b ≠ "" → endsWithSep (a +:+ b) = endsWithSep b.
Proof.
  intros Hb. induction a as [|c a IH]; [done |].
  rewrite append_String. simpl.
  pose proof (append_nonempty_r a b Hb). by destruct (a +:+ b).
Qed.

Lemma endsWithSep_String (c : ascii) (s : string) :
  s ≠ "" → endsWithSep (String c s) = endsWithSep s.
Proof. by destruct s. Qed.

Lemma endsWithSep_name (s : string) : hasSep s = false → endsWithSep s = false.
Proof.
  induction s as [|c s IH]; simpl; [done |].
  intros H. apply orb_false_iff in H as [Hc Hs]. destruct s; [done | by apply IH].
Qed.

Lemma join_sep_cons (x : string) (l : list string) :
  l ≠ [] → join_sep (x :: l) = x +:+ String sep (join_sep l).
Proof. by destruct l. Qed.

Lemma join_sep_nonempty (l : list string) :
  names l → l ≠ [] → join_sep l ≠ "".
Proof.
  intros Hl Hne. destruct Hl as [|x l Hx Hl]; [done |].
  apply isName_spec in Hx as (Hx & _).
  destruct l as [|y l]; [done |].
  rewrite join_sep_cons by done. by apply append_nonempty_r.
Qed.

Lemma endsWithSep_join_sep (l : list string) :
  names l → l ≠ [] → endsWithSep (join_sep l) = false.
Proof.
  induction 1 as [|x l Hx Hl IH]; [done |]. intros _.
  destruct l as [|y l].
  - apply isName_spec in Hx as (_ & _ & _ & Hx). by apply endsWithSep_name.
  - rewrite join_sep_cons, endsWithSep_app by done.
    rewrite endsWithSep_String by (by apply join_sep_nonempty).
    by apply IH.
Qed.

Lemma join_sep_app (rs ds : list string) :
  rs ≠ [] → ds ≠ [] →
  join_sep (rs ++ ds) = join_sep rs +:+ String sep (join_sep ds).
Proof.
  intros Hrs Hds. induction rs as [|x rs IH]; [done |].
  destruct rs as [|y rs].
  - simpl. by destruct ds.
  - change ((x :: y :: rs) ++ ds) with (x :: ((y :: rs) ++ ds)).
    rewrite !join_sep_cons by done. rewrite IH by done.
    by rewrite append_assoc.
Qed.

Lemma prefix_append (a b : string) : String.prefix a (a +:+ b) = true.
Proof.
  induction a as [|c a IH]; [by destruct b |].
  rewrite append_String. simpl. by destruct (ascii_dec c c).
Qed.

Lemma prefix_absPath (rs ds : list string) :
  String.prefix (absPath rs) (absPath (rs ++ ds)) = true.
Proof.
  unfold absPath. simpl. destruct (ascii_dec sep sep); [|done].
  destruct (decide (rs = [])) as [-> | Hrs]; [by destruct (join_sep ([] ++ ds)) |].
  destruct (decide (ds = [])) as [-> | Hds].
  - rewrite app_nil_r. rewrite <- (append_empty_r (join_sep rs)) at 2.
    apply prefix_append.
  - rewrite join_sep_app by done. apply prefix_append.
Qed.

Lemma normalize_absolute (p : string) :
  normalize (String sep p)
  = match normalizeString false (split (String sep p)) [] with
    | [] => "/"
    | segs =>
        "/" +:+ join_sep segs
        +:+ (if endsWithSep (String sep p) then "/" else "")
    end.
Proof. reflexivity. Qed.

Lemma normalizeString_skip_empty (allow : bool) (l res : list string) :
  normalizeString allow ("" :: l) res = normalizeString allow l res.
Proof. reflexivity. Qed.

(** [path.join] of a well-formed absolute path and further names. *)
Lemma join_absPath (rs l : list string) :
  names rs → names l →
  join (absPath rs :: l) = absPath (rs ++ l).
Proof.
  intros Hrs Hl. unfold join.
  assert (Hfilter : List.filter (fun a => negb (String.eqb a "")) (absPath rs :: l)
                    = absPath rs :: l).
  { simpl. f_equal. clear Hrs. induction Hl as [|x l Hx Hl IH]; [done |].
    simpl. apply isName_spec in Hx as (Hx & _).
    apply String.eqb_neq in Hx. rewrite Hx. simpl. by f_equal. }
  rewrite Hfilter. clear Hfilter.
  assert (Hall : names (rs ++ l)) by (by apply Forall_app).
  destruct (decide (l = [])) as [-> | Hne].
  - rewrite app_nil_r. change (join_sep [absPath rs]) with (absPath rs).
    unfold absPath at 1. rewrite normalize_absolute.
    fold (absPath rs). rewrite split_absPath by done.
    rewrite normalizeString_skip_empty.
    destruct (decide (rs = [])) as [-> | Hrs']; [done |].
    rewrite normalizeString_names by done. simpl rev. rewrite app_nil_l.
    unfold absPath at 1.
    rewrite endsWithSep_String by (by apply join_sep_nonempty).
    rewrite endsWithSep_join_sep by done.
    destruct rs as [|r rs]; [done |].
    unfold absPath. by rewrite append_empty_r.
  - rewrite join_sep_cons by done.
    assert (Hp : absPath rs +:+ String sep (join_sep l)
                 = String sep (join_sep rs +:+ String sep (join_sep l)))
      by reflexivity.
    rewrite Hp, normalize_absolute, <- Hp.
    rewrite split_app_sep, split_absPath, split_join_sep by done.
    rewrite endsWithSep_app by done.
    rewrite endsWithSep_String by (by apply join_sep_nonempty).
    rewrite endsWithSep_join_sep by done.
    assert (Hnorm : normalizeString false
                      (("" :: (if decide (rs = []) then [""] else rs)) ++ l) []
                    = rs ++ l).
    { destruct (decide (rs = [])) as [-> | Hrs']; simpl.
      - by rewrite normalizeString_names.
      - by rewrite normalizeString_names. }
    rewrite Hnorm.
    destruct (rs ++ l) eqn:Hcat; [by destruct rs, l |].
    rewrite <- Hcat. unfold absPath. by rewrite append_empty_r.
Qed.

End PathFacts.


(** * Properties of the manifest scan *)

Section Scan.
Context (fname : string) (ignoreDirs : list string).

Lemma node_induction (P : node → Prop) :
  (∀ content, P (File content)) →
  (∀ es, Forall (fun e => P e.2) es → P (Dir es)) →
  ∀ n, P n.
Proof.
  intros HFile HDir. fix IH 1. intros [content | es].
  - apply HFile.
  - apply HDir. induction es as [|[name child] es IHes]; constructor.
    + apply IH.
    + apply IHes.
Qed.

Lemma elem_of_SetAdd (x q : string) (s : list string) :
  q ∈ SetAdd x s ↔ q ∈ s ∨ q = x.
Proof.
  unfold SetAdd. case_bool_decide as Hin.
  - split; [by left | intros [H | ->]; done].
  - rewrite elem_of_app, list_elem_of_singleton. done.
Qed.

Lemma NoDup_SetAdd (x : string) (s : list string) :
  NoDup s → NoDup (SetAdd x s).
Proof.
  intros Hs. unfold SetAdd. case_bool_decide as Hin; [done |].
  apply NoDup_app. split_and!; [done | | apply NoDup_singleton].
  intros y Hy Hy'. apply list_elem_of_singleton in Hy'. by subst.
Qed.

Lemma found_unfold (p : string) (es : list (string * node)) (q : string) :
  found fname ignoreDirs p es q ↔
  (existsSync (Dir es) fname = true ∧ q = Path.join [p; fname])
  ∨ ∃ name ces, (name, Dir ces) ∈ es
                ∧ includes ignoreDirs name = false
                ∧ found fname ignoreDirs (Path.join [p; name]) ces q.
Proof.
  unfold found. split.
  - intros [Hhere | (d & des & Hdesc & Hex & Hq)]; [by left |]. right.
    destruct Hdesc as [p es name ces Hin Hign | p es name ces d des Hin Hign Hrec];
      exists name, ces; split_and!; try done.
    + by left.
    + right. by exists d, des.
  - intros [Hhere | (name & ces & Hin & Hign & [[Hex Hq] | (d & des & Hdesc & Hex & Hq)])].
    + by left.
    + right. exists (Path.join [p; name]), ces. split_and!; try done.
      by constructor.
    + right. exists d, des. split_and!; try done.
      by eapply desc_deeper.
Qed.

Lemma traverseDirectory_Dir (subdir : string) (es : list (string * node))
    (acc : list string) :
  traverseDirectory fname ignoreDirs subdir (Dir es) acc
  = traverseSubdirs fname ignoreDirs subdir es
      (if existsSync (Dir es) fname
       then SetAdd (Path.join [subdir; fname]) acc else acc).
Proof. reflexivity. Qed.

Lemma traverseSubdirs_ok (subdir : string) (es : list (string * node)) :
  Forall (fun e => traversal_ok fname ignoreDirs e.2) es →
  ∀ acc, ∃ acc',
    traverseSubdirs fname ignoreDirs subdir es acc = inr acc'
    ∧ (NoDup acc → NoDup acc')
    ∧ ∀ q, q ∈ acc' ↔
        q ∈ acc
        ∨ ∃ name ces, (name, Dir ces) ∈ es
                      ∧ includes ignoreDirs name = false
                      ∧ found fname ignoreDirs (Path.join [subdir; name]) ces q.
Proof.
  induction 1 as [|[name child] es Hchild _ IH]; intros acc.
  - exists acc. split_and!; [done | done |]. intros q. split; [by left |].
    intros [H | (name & ces & Hin & _)]; [done | inversion Hin].
  - simpl. destruct child as [content | ces]; simpl.
    + destruct (IH acc) as (acc' & Hrun & Hnd & Hspec).
      exists acc'. split_and!; [done | done |]. intros q. rewrite Hspec.
      split; intros [H | (name' & ces' & Hin & Hrest)]; try by left.
      * right. exists name', ces'. split; [by right | done].
      * right. exists name', ces'. split; [|done].
        inversion Hin; subst; done.
    + destruct (includes ignoreDirs name) eqn:Hign; simpl.
      * destruct (IH acc) as (acc' & Hrun & Hnd & Hspec).
        exists acc'. split_and!; [done | done |]. intros q. rewrite Hspec.
        split; intros [H | (name' & ces' & Hin & Hign' & Hrest)]; try by left.
        -- right. exists name', ces'. split; [by right | done].
        -- right. exists name', ces'. split; [|done].
           inversion Hin; subst; [congruence | done].
      * destruct (Hchild (Path.join [subdir; name]) ces acc eq_refl)
          as (acc1 & Hrun1 & Hnd1 & Hspec1).
        simpl in Hrun1. rewrite Hrun1. simpl.
        destruct (IH acc1) as (acc' & Hrun & Hnd & Hspec).
        exists acc'. split_and!; [done | by intros; apply Hnd, Hnd1 |].
        intros q. rewrite Hspec, Hspec1. split.
        -- intros [[H | H] | (name' & ces' & Hin & Hrest)].
           ++ by left.
           ++ right. exists name, ces. split_and!; [by left | done | done].
           ++ right. exists name', ces'. split; [by right | done].
        -- intros [H | (name' & ces' & Hin & Hign' & Hrest)]; [by left; left |].
           inversion Hin; subst.
           ++ left. by right.
           ++ right. by exists name', ces'.
Qed.

Lemma traverseDirectory_ok (n : node) : traversal_ok fname ignoreDirs n.
Proof.
  unfold traversal_ok.
  induction n as [content | es IH] using node_induction;
    intros subdir es' acc Heq; [done |].
  injection Heq as <-. rewrite traverseDirectory_Dir.
  destruct (traverseSubdirs_ok subdir es IH
              (if existsSync (Dir es) fname
               then SetAdd (Path.join [subdir; fname]) acc else acc))
    as (acc' & Hrun & Hnd & Hspec).
  exists acc'. split_and!; [done | |].
  - intros Hacc. apply Hnd. destruct (existsSync _ _); [by apply NoDup_SetAdd | done].
  - intros q. rewrite Hspec, (found_unfold subdir es q).
    destruct (existsSync (Dir es) fname) eqn:Hex.
    + rewrite elem_of_SetAdd. intuition auto.
    + intuition (auto; discriminate).
Qed.

Lemma traverseSubdirs_ignored (subdir name : string)
    (es1 es2 sub sub' : list (string * node)) (acc : list string) :
  includes ignoreDirs name = true →
  traverseSubdirs fname ignoreDirs subdir (es1 ++ (name, Dir sub) :: es2) acc
  = traverseSubdirs fname ignoreDirs subdir (es1 ++ (name, Dir sub') :: es2) acc.
Proof.
  intros Hign. revert acc.
  induction es1 as [|[name1 child1] es1 IH]; intros acc; simpl.
  - by rewrite Hign.
  - destruct (isDirectory child1 && negb (includes ignoreDirs name1)); [|done].
    destruct (traverseDirectory _ _ _ child1 acc); simpl; done.
Qed.

Lemma existsSync_names (es es' : list (string * node)) :
  es.*1 = es'.*1 → existsSync (Dir es) fname = existsSync (Dir es') fname.
Proof.
  simpl. revert es'. induction es as [|e es IH]; intros [|e' es'] Heq;
    simpl in *; try done.
  injection Heq as He Hes. rewrite He. f_equal. by apply IH.
Qed.

End Scan.

(** C3, amended. For every directory, manifest file name and ignore list
    the scan terminates with a duplicate-free collection that holds exactly
    the root manifest path when the root has an entry of that name, and the
    manifest path of every descendant directory that has such an entry
    and is not under an ignored directory.  A sub-directory whose name is
    in the ignore list is not entered: whatever it contains, the result is
    the same. *)
Theorem scan_collects_exactly (P : PackageParser) (root : string)
    (es : list (string * node)) :
  ∃ paths,
    scan P root (Dir es) = inr paths
    ∧ NoDup paths
    ∧ (∀ q, q ∈ paths ↔
         (existsSync (Dir es) (filename P) = true
          ∧ q = Path.join [root; filename P])
         ∨ ∃ d des, descendant (ignoreDirectories P) root es d des
                    ∧ existsSync (Dir des) (filename P) = true
                    ∧ q = Path.join [d; filename P])
    ∧ (∀ name es1 es2 sub sub',
         es = es1 ++ (name, Dir sub) :: es2 →
         includes (ignoreDirectories P) name = true →
         scan P root (Dir (es1 ++ (name, Dir sub') :: es2)) = inr paths).
Proof.
  unfold scan.
  destruct (traverseDirectory_ok (filename P) (ignoreDirectories P) (Dir es)
              root es
              (if existsSync (Dir es) (filename P)
               then SetAdd (Path.join [root; filename P]) [] else [])
              eq_refl) as (paths & Hrun & Hnd & Hspec).
  exists paths. split_and!; [done | | |].
  - apply Hnd. destruct (existsSync _ _); [|constructor].
    apply NoDup_SetAdd. constructor.
  - intros q. rewrite Hspec. unfold found.
    destruct (existsSync (Dir es) (filename P)) eqn:Hex.
    + rewrite elem_of_SetAdd. split; [|by right].
      intros [[Hq | Hq] | Hq]; [inversion Hq | by left | done].
    + split; [|by right]. intros [Hq | Hq]; [inversion Hq | done].
  - intros name es1 es2 sub sub' -> Hign. rewrite <- Hrun.
    rewrite !traverseDirectory_Dir.
    rewrite (existsSync_names (filename P) (es1 ++ (name, Dir sub') :: es2)
               (es1 ++ (name, Dir sub) :: es2))
      by (by rewrite !fmap_app).
    by apply traverseSubdirs_ignored.
Qed.

(** C3: a root without a manifest contributes no path of its own. *)
Lemma scan_leaves_out_missing_root_manifest :
  ∃ paths,
    scan PackageJSONParser "/ws/lib" (Dir []) = inr paths
    ∧ Path.join ["/ws/lib"; filename PackageJSONParser] ∉ paths.
Proof. exists []. split; [reflexivity |]. intros Hin. inversion Hin. Qed.

Example scan_workspace :
  scan PackageJSONParser "/ws" Sample.workspace
  = inr ["/ws/package.json"; "/ws/app/package.json"].
Proof. reflexivity. Qed.

(** * Failure of one manifest *)

Lemma parseAll_fails (P : PackageParser) (H : Host) (bad raw : string) (e : exn)
    (paths : list string) :
  bad ∈ paths →
  loadFile H bad = inr raw →
  parserRaw P H raw = inl e →
  ∀ data, ∃ e', parseAll P H paths data = inl e'.
Proof.
  intros Hin Hread Hparse.
  induction paths as [|p paths IH]; intros data; [inversion Hin |].
  simpl. destruct (decide (p = bad)) as [-> | Hne].
  - rewrite Hread. simpl. rewrite Hparse. simpl. by exists e.
  - assert (Hin' : bad ∈ paths) by (inversion Hin; subst; done).
    destruct (loadFile H p) as [e1 | raw1]; simpl; [by exists e1 |].
    destruct (parserRaw P H raw1) as [e2 | deps]; simpl; [by exists e2 |].
    by apply IH.
Qed.

(** C4. If the content of one manifest found under a root cannot be
    parsed, [load] returns [undefined] for the whole root, whatever had been
    parsed from other manifests, after logging that a manifest was found
    and that parsing failed; it returns normally, no exception reaches the
    caller. *)
Theorem load_parse_failure_aborts_root (P : PackageParser) (H : Host)
    (root : string) (rootDir : node) (paths : list string)
    (bad raw : string) (e : exn) :
  scan P root rootDir = inr paths →
  bad ∈ paths →
  loadFile H bad = inr raw →
  parserRaw P H raw = inl e →
  load P H root rootDir
  = (inr None, [LogFound (filename P); LogParseError (filename P) root]).
Proof.
  intros Hscan Hin Hread Hparse. unfold load. rewrite Hscan.
  destruct paths as [|p paths]; [inversion Hin |]. simpl length.
  destruct (parseAll_fails P H bad raw e (p :: paths) Hin Hread Hparse [])
    as (e' & Hfail).
  by rewrite Hfail.
Qed.

Lemma load_parse_failure_aborts_root_witness :
  load PackageJSONParser Sample.host "/legacy" Sample.legacy
  = (inr None,
     [LogFound (filename PackageJSONParser);
      LogParseError (filename PackageJSONParser) "/legacy"]).
Proof.
  apply (load_parse_failure_aborts_root PackageJSONParser Sample.host "/legacy"
           Sample.legacy
           ["/legacy/package.json"; "/legacy/docs/package.json"]
           "/legacy/docs/package.json" "{oops" SyntaxError).
  - reflexivity.
  - apply list_elem_of_In. simpl. auto.
  - reflexivity.
  - reflexivity.
Defined.

(** The names read from /legacy/package.json before the malformed manifest
    is reached are not returned. *)
Example load_discards_parsed_names :
  parseAll PackageJSONParser Sample.host ["/legacy/package.json"] []
  = inr ["vue-i18n"]
  ∧ (load PackageJSONParser Sample.host "/legacy" Sample.legacy).1 = inr None
  ∧ load PackageJSONParser Sample.host "/ws" Sample.workspace
    = (inr (Some ["vue-i18n"]), [LogFound "package.json"]).
Proof. vm_compute. done. Qed.
(** * The nearest enabled frameworks *)

Section Nearest.
Import Path Global.
Context (E : Env).

Lemma join_trailing_empty (a : string) : join [a; ""] = join [a].
Proof. unfold join. simpl. by destruct (String.eqb a ""). Qed.

Lemma ancestors_unfold (rs ds : list string) :
  ancestors rs ds
  = map (fun i => absPath (rs ++ take i ds)) (rev (seq 1 (length ds)))
    ++ [absPath rs].
Proof.
  unfold ancestors. rewrite <- cons_seq. simpl rev.
  rewrite map_app. simpl. by rewrite take_0, app_nil_r.
Qed.

Lemma candidateFolders_absPath (rs ds : list string) :
  names rs → names ds →
  candidateFolders (absPath rs) (absPath (rs ++ ds))
  = if decide (ds = []) then [absPath rs; absPath rs] else ancestors rs ds.
Proof.
  intros Hrs Hds. unfold candidateFolders. rewrite relative_absPath by done.
  destruct (decide (ds = [])) as [-> | Hne].
  - simpl. rewrite join_trailing_empty.
    by rewrite (join_absPath rs [] Hrs Hds), app_nil_r.
  - rewrite split_join_sep, ancestors_unfold by done. f_equal.
    apply map_ext. intros i. apply join_absPath; [done |].
    by apply Forall_take.
Qed.

Lemma firstEnabled_hit (pre post : list string) (f : string) :
  (∀ g, g ∈ pre → activated E g = []) →
  activated E f ≠ [] →
  firstEnabled E (pre ++ f :: post) = ((activated E f, Some f), pre ++ [f]).
Proof.
  intros Hpre Hf. induction pre as [|g pre IH]; simpl.
  - fold (activated E f). by destruct (activated E f).
  - fold (activated E g). rewrite (Hpre g) by (by left). simpl.
    rewrite IH; [done |]. intros g' Hg'. apply Hpre. by right.
Qed.

Lemma firstEnabled_miss (l : list string) :
  (∀ g, g ∈ l → activated E g = []) →
  firstEnabled E l = (([], None), l).
Proof.
  intros Hl. induction l as [|g l IH]; simpl; [done |].
  fold (activated E g). rewrite (Hl g) by (by left). simpl.
  rewrite IH; [done |]. intros g' Hg'. apply Hl. by right.
Qed.

(** [findNearestEnabledFrameworks] on two paths that are set. *)
Lemma findNearest_defined (root current : string) :
  findNearestEnabledFrameworks E (Some root) (Some current)
  = inr (if negb (String.prefix root current) then (([], None), [])
         else firstEnabled E (candidateFolders root current)).
Proof.
  unfold findNearestEnabledFrameworks. simpl.
  by destruct (String.prefix root current).
Qed.

(** The guard at the head of [findNearestEnabledFrameworks], as written. *)
Lemma findNearest_not_prefixed (root current : string) :
  String.prefix root current = false →
  findNearestEnabledFrameworks E (Some root) (Some current)
  = inr (([], None), []).
Proof. intros H. by rewrite findNearest_defined, H. Qed.

(** C2. For a workspace root and an active-file directory under it, both
    given by their names, the folders from the active directory up to the
    root, closest first, are examined in that order.  The result is the
    framework list and the path of the first of them that activates a
    framework, and no folder beyond it is examined; so an inner folder that
    activates a framework is selected whatever the root holds.  If none
    activates anything the result is empty and every folder of the chain
    has been examined.  (When the active directory is the root itself the
    root is examined, and examined again if it activated nothing.) *)
Theorem findNearest_closest_folder_wins (rs ds : list string) :
  names rs → names ds →
  let root := absPath rs in
  let current := absPath (rs ++ ds) in
  let r := findNearestEnabledFrameworks E (Some root) (Some current) in
  head (ancestors rs ds) = Some current
  ∧ last (ancestors rs ds) = Some root
  ∧ (ds ≠ [] → r = inr (firstEnabled E (ancestors rs ds)))
  ∧ (∀ pre f post,
       ancestors rs ds = pre ++ f :: post →
       (∀ g, g ∈ pre → activated E g = []) →
       activated E f ≠ [] →
       r = inr ((activated E f, Some f), pre ++ [f]))
  ∧ ((∀ g, g ∈ ancestors rs ds → activated E g = []) →
     ∃ visited, r = inr (([], None), visited)
                ∧ ∀ g, g ∈ visited ↔ g ∈ ancestors rs ds).
Proof.
  intros Hrs Hds root current r. subst r root current.
  rewrite findNearest_defined.
  rewrite prefix_absPath, candidateFolders_absPath by done. simpl negb. cbv iota.
  split_and!.
  - unfold ancestors. rewrite seq_S, rev_app_distr. simpl.
    by rewrite take_ge by lia.
  - rewrite ancestors_unfold. by rewrite last_snoc.
  - intros Hne. by destruct (decide (ds = [])).
  - intros pre f post Hsplit Hpre Hf.
    destruct (decide (ds = [])) as [-> | Hne].
    + unfold ancestors in Hsplit. simpl in Hsplit. rewrite app_nil_r in Hsplit.
      destruct pre as [|g pre]; simpl in Hsplit.
      * injection Hsplit as <- <-. f_equal.
        by apply (firstEnabled_hit [] [absPath rs]).
      * injection Hsplit as _ Hrest. by destruct pre.
    + rewrite Hsplit. f_equal. by apply firstEnabled_hit.
  - intros Hnone. destruct (decide (ds = [])) as [-> | Hne].
    + assert (Hroot : activated E (absPath rs) = []).
      { apply Hnone. unfold ancestors. simpl. rewrite app_nil_r. by left. }
      rewrite firstEnabled_miss.
      2:{ intros g Hg. repeat (apply elem_of_cons in Hg as [-> | Hg]; [done |]).
          inversion Hg. }
      eexists. split; [done |]. intros g. unfold ancestors. simpl.
      rewrite app_nil_r.
      rewrite !elem_of_cons. split; [intros [-> | [-> | H]]; auto | intros [-> | H]; auto].
    + rewrite firstEnabled_miss by done. by eexists.
Qed.

End Nearest.

Example ancestors_of_active_folder :
  Path.ancestors ["ws"] ["app"; "src"; "x"]
  = ["/ws/app/src/x"; "/ws/app/src"; "/ws/app"; "/ws"].
Proof. reflexivity. Qed.

Lemma findNearest_closest_folder_wins_witness :
  let rs := ["ws"] in
  let ds := ["app"; "src"; "x"] in
  let E := Sample.env in
  let root := Path.absPath rs in
  let current := Path.absPath (rs ++ ds) in
  let r := Global.findNearestEnabledFrameworks E (Some root) (Some current) in
  head (Path.ancestors rs ds) = Some current
  ∧ last (Path.ancestors rs ds) = Some root
  ∧ (ds ≠ [] → r = inr (Global.firstEnabled E (Path.ancestors rs ds)))
  ∧ (∀ pre f post,
       Path.ancestors rs ds = pre ++ f :: post →
       (∀ g, g ∈ pre → Global.activated E g = []) →
       Global.activated E f ≠ [] →
       r = inr ((Global.activated E f, Some f), pre ++ [f]))
  ∧ ((∀ g, g ∈ Path.ancestors rs ds → Global.activated E g = []) →
     ∃ visited, r = inr (([], None), visited)
                ∧ ∀ g, g ∈ visited ↔ g ∈ Path.ancestors rs ds).
Proof.
  apply (findNearest_closest_folder_wins Sample.env ["ws"] ["app"; "src"; "x"]).
  - repeat constructor.
  - repeat constructor.
Defined.

(** The walk on the sample workspace: /ws/app is chosen although /ws has
    a manifest of its own and would activate the same framework; /ws is
    never examined. *)
Example nearest_inner_folder_selected :
  Global.findNearestEnabledFrameworks Sample.env
    (Some "/ws") (Some "/ws/app/src/x")
  = inr (([Sample.vue], Some "/ws/app"),
         ["/ws/app/src/x"; "/ws/app/src"; "/ws/app"])
  ∧ Global.activated Sample.env "/ws/app/src/x" = []
  ∧ Global.activated Sample.env "/ws/app/src" = []
  ∧ Global.activated Sample.env "/ws/app" = [Sample.vue]
  ∧ Global.activated Sample.env "/ws" = [Sample.vue]
  ∧ existsSync Sample.workspace "package.json" = true.
Proof. vm_compute. done. Qed.

(** C5. The guard compares strings, not paths: /wsx is neither /ws nor
    below it, yet it starts with "/ws", so the walk visits /wsx (then / and
    /ws) and returns the framework activated by /wsx/package.json instead
    of the empty result. *)
Theorem findNearest_sibling_sharing_prefix :
  Path.resolve_segs "/ws" = ["ws"]
  ∧ Path.resolve_segs "/wsx" = ["wsx"]
  ∧ Global.candidateFolders "/ws" "/wsx" = ["/wsx"; "/"; "/ws"]
  ∧ Global.findNearestEnabledFrameworks Sample.env (Some "/ws") (Some "/wsx")
    = inr (([Sample.vue], Some "/wsx"), ["/wsx"]).
Proof. vm_compute. done. Qed.

(** * Properties of the controller *)

Section GlobalFacts.
Import Global.
Context (E : Env) (C : Config.t).

Lemma includes_spec (l : list string) (x : string) :
  includes l x = true ↔ x ∈ l.
Proof.
  unfold includes. rewrite existsb_exists. split.
  - intros (y & Hin & Heq). apply String.eqb_eq in Heq. subst.
    by apply list_elem_of_In.
  - intros Hin. exists x. split; [by apply list_elem_of_In | apply String.eqb_refl].
Qed.

Lemma filter_nil_iff {A} (f : A → bool) (l : list A) :
  List.filter f l = [] ↔ ∀ x, x ∈ l → f x = false.
Proof.
  induction l as [|a l IH]; simpl.
  - split; [intros _ x Hx; inversion Hx | done].
  - destruct (f a) eqn:Ha.
    + split; [done |]. intros H. specialize (H a (list_elem_of_here _ _)). congruence.
    + rewrite IH. split.
      * intros H x Hx. inversion Hx; subst; eauto.
      * intros H x Hx. apply H. by constructor.
Qed.

Lemma enabledParsers_nil_iff (s : State) :
  enabledParsers E C s = [] ↔
  ∀ p, p ∈ AvailableParsers E → parser_id p ∉ enabledParserIds E C s.
Proof.
  unfold enabledParsers. rewrite filter_nil_iff. split.
  - intros H p Hp Hin. apply includes_spec in Hin. rewrite (H p Hp) in Hin. done.
  - intros H p Hp. destruct (includes _ _) eqn:Hi; [|done].
    apply includes_spec in Hi. by destruct (H p Hp).
Qed.

Lemma length_zero_nil {A} (l : list A) : (0 <? length l) = false ↔ l = [].
Proof. destruct l; simpl; split; done. Qed.

(** C9. When neither the parser-id override ([Config.enabledParsers],
    unset or empty) nor any enabled framework supplies a parser id, the id
    list falls back to [DefaultEnabledParsers] and [enabledParsers] is the
    list of available parsers whose id is in it.  Hence the conjunct
    "at least one enabled parser" is false only when no available parser
    has an id of the resulting list. *)
Theorem enabledParsers_falls_back_to_default (s : State) :
  (Config.enabledParsers C = None ∨ Config.enabledParsers C = Some []) →
  flat_map (fun f => default [] (enabledParsers_of f)) (enabledFrameworks s) = [] →
  enabledParserIds E C s = DefaultEnabledParsers E
  ∧ enabledParsers E C s
    = List.filter (fun i => includes (DefaultEnabledParsers E) (parser_id i))
        (AvailableParsers E)
  ∧ ((0 <? length (enabledParsers E C s)) = false ↔
     ∀ p, p ∈ AvailableParsers E → parser_id p ∉ DefaultEnabledParsers E).
Proof.
  intros Hcfg Hfw.
  assert (Hids : enabledParserIds E C s = DefaultEnabledParsers E).
  { unfold enabledParserIds. destruct Hcfg as [-> | ->]; simpl; by rewrite Hfw. }
  split; [done |]. split.
  - unfold enabledParsers. by rewrite Hids.
  - rewrite length_zero_nil, enabledParsers_nil_iff. by rewrite Hids.
Qed.


Lemma resetCache_fresh (s : State) : customCacheFresh E C (resetCache s).
Proof. intros custom cached _ H. simpl in H. by rewrite lookup_empty in H. Qed.

Lemma getUsageMatchRegex_custom_cases (custom : list string)
    (languageId filepath : option string) (s : State) :
  Config._regexUsageMatch C = Some custom →
  let v := normalizeUsageMatchRegex E (custom ++ Config._regexUsageMatchAppend C) in
  getUsageMatchRegex E C languageId filepath s
  = match _cacheUsageMatchRegex s !! "custom" with
    | Some cached => (cached, s)
    | None => (v, with_cache (<["custom" := v]> (_cacheUsageMatchRegex s)) s)
    end.
Proof. intros H. unfold getUsageMatchRegex. by rewrite H. Qed.

(** C10. With the usage-match override configured, [getUsageMatchRegex]
    does not depend on its arguments: two calls with any language ids and
    file paths, from the same state or one after the other, return the same
    list.  The list is kept under the single key "custom", no other cache
    entry is touched, the enabled frameworks contribute nothing, and, the
    cached entry being the one of the configuration in force (as it is
    after every [resetCache]), the list is the normalised override followed
    by the append-list. *)
Theorem getUsageMatchRegex_custom_ignores_arguments (custom : list string)
    (l1 f1 l2 f2 : option string) (s : State) :
  Config._regexUsageMatch C = Some custom →
  let expected :=
    normalizeUsageMatchRegex E (custom ++ Config._regexUsageMatchAppend C) in
  let r1 := getUsageMatchRegex E C l1 f1 s in
  let r2 := getUsageMatchRegex E C l2 f2 s in
  let r12 := getUsageMatchRegex E C l2 f2 r1.2 in
  r1.1 = r2.1
  ∧ r12.1 = r1.1
  ∧ _cacheUsageMatchRegex r1.2 !! "custom" = Some r1.1
  ∧ (∀ key, key ≠ "custom" →
       _cacheUsageMatchRegex r1.2 !! key = _cacheUsageMatchRegex s !! key)
  ∧ (∀ fws, (getUsageMatchRegex E C l1 f1 (with_frameworks fws s)).1 = r1.1)
  ∧ (customCacheFresh E C s → r1.1 = expected ∧ customCacheFresh E C r1.2).
Proof.
  intros Hc expected r1 r2 r12. subst r1 r2 r12.
  rewrite !(getUsageMatchRegex_custom_cases custom) by done.
  destruct (_cacheUsageMatchRegex s !! "custom") as [cached|] eqn:Hl; simpl.
  - rewrite Hl. simpl. split_and!; try done.
    + intros fws. rewrite (getUsageMatchRegex_custom_cases custom) by done.
      simpl. by rewrite Hl.
    + intros Hf. split; [by apply (Hf custom) | done].
  - rewrite lookup_insert_eq. simpl. split_and!; try done.
    + intros key Hk. by rewrite lookup_insert_ne.
    + intros fws. rewrite (getUsageMatchRegex_custom_cases custom) by done.
      simpl. by rewrite Hl.
    + intros _. split; [done |].
      intros custom' cached' Hc' Hl'. simpl in Hl'.
      rewrite lookup_insert_eq in Hl'. rewrite Hc in Hc'. by simplify_eq.
Qed.


(** *** How [update] transforms the state *)

Lemma setEnabled_state (value : bool) (s : State) :
  (setEnabled E value s).1 = with_enabled value s.
Proof.
  unfold setEnabled. destruct (Bool.eqb (_enabled s) value) eqn:Heq; simpl; [|done].
  apply Bool.eqb_prop in Heq. subst value. by destruct s.
Qed.

Lemma setEnabled_effects (value : bool) (s : State) :
  (setEnabled E value s).2
  = if Bool.eqb (_enabled s) value then []
    else [LogEnabled value; SetContext (EXT_NAMESPACE E +:+ "-enabled") value;
          FireDidChangeEnabled value].
Proof. unfold setEnabled. by destruct (Bool.eqb (_enabled s) value). Qed.


Lemma resolveFrameworks_throws (s : State) (e : exn) :
  resolveFrameworks E C s = inl e ↔
  Config.enabledFrameworks C = None
  ∧ findNearestEnabledFrameworks E (_currentWorkspaceRootPath s)
      (_currentActiveFilePath s) = inl e.
Proof.
  unfold resolveFrameworks. destruct (Config.enabledFrameworks C).
  - split; [done | by intros [? _]].
  - destruct (findNearestEnabledFrameworks _ _ _)
      as [e' | [[fws nearest] visited]]; simpl.
    + split; [by intros [= ->] | by intros [_ [= ->]]].
    + split; [done | by intros [_ ?]].
Qed.

Lemma resolveFrameworks_frame (s s1 : State) (scanned : list effect) :
  resolveFrameworks E C s = inr (s1, scanned) →
  _loaders s1 = _loaders s
  ∧ _currentWorkspaceRootPath s1 = _currentWorkspaceRootPath s
  ∧ _currentActiveFilePath s1 = _currentActiveFilePath s
  ∧ _enabled s1 = _enabled s
  ∧ _currentWorkspaceFolder s1 = _currentWorkspaceFolder s
  ∧ _cacheUsageMatchRegex s1 = _cacheUsageMatchRegex s
  ∧ created s1 = created s
  ∧ disposed s1 = disposed s
  ∧ ∃ visited, scanned = map ScanFolder visited.
Proof.
  unfold resolveFrameworks. destruct (Config.enabledFrameworks C).
  - intros [= <- <-]. split_and!; try done. by exists [].
  - destruct (findNearestEnabledFrameworks _ _ _)
      as [e' | [[fws nearest] visited]]; simpl; [done |].
    intros [= <- <-]. split_and!; try done. by exists visited.
Qed.

Lemma initLoader_frame (folderPath : option string) (reload : bool) (s : State) :
  let s1 := (initLoader folderPath reload s).1 in
  _currentWorkspaceRootPath s1 = _currentWorkspaceRootPath s
  ∧ _currentActiveFilePath s1 = _currentActiveFilePath s
  ∧ _nearestEnabledFrameworkPath s1 = _nearestEnabledFrameworkPath s
  ∧ _enabled s1 = _enabled s
  ∧ _currentWorkspaceFolder s1 = _currentWorkspaceFolder s
  ∧ enabledFrameworks s1 = enabledFrameworks s
  ∧ _cacheUsageMatchRegex s1 = _cacheUsageMatchRegex s
  ∧ disposed s1 = disposed s.
Proof.
  unfold initLoader. destruct folderPath as [folderPath|]; [|done].
  destruct (String.eqb folderPath ""); [done |].
  by destruct (_ && _).
Qed.

Lemma enabledParsers_ext (s s' : State) :
  enabledFrameworks s = enabledFrameworks s' →
  enabledParsers E C s = enabledParsers E C s'.
Proof. intros H. unfold enabledParsers, enabledParserIds. by rewrite H. Qed.

Lemma localesPaths_ext (s s' : State) :
  enabledFrameworks s = enabledFrameworks s' →
  _currentWorkspaceFolder s = _currentWorkspaceFolder s' →
  localesPaths C s = localesPaths C s'.
Proof. intros H1 H2. unfold localesPaths. by rewrite H1, H2. Qed.

Lemma shouldEnabled_ext (s s' : State) :
  enabledFrameworks s = enabledFrameworks s' →
  _currentWorkspaceFolder s = _currentWorkspaceFolder s' →
  shouldEnabled E C s = shouldEnabled E C s'.
Proof.
  intros H1 H2. unfold shouldEnabled, isValidProject, hasLocalesSet.
  by rewrite (enabledParsers_ext s s'), (localesPaths_ext s s'), H1.
Qed.

(** The state left by the part of [update] that follows the assignment of
    the frameworks. *)
Lemma refreshed_frame (reload : bool) (s : State) :
  let s' := refreshed E C reload s in
  _currentWorkspaceRootPath s' = _currentWorkspaceRootPath s
  ∧ _currentActiveFilePath s' = _currentActiveFilePath s
  ∧ _nearestEnabledFrameworkPath s' = _nearestEnabledFrameworkPath s
  ∧ _currentWorkspaceFolder s' = _currentWorkspaceFolder s
  ∧ enabledFrameworks s' = enabledFrameworks s
  ∧ _cacheUsageMatchRegex s' = _cacheUsageMatchRegex s
  ∧ enabled s' = shouldEnabled E C s.
Proof.
  cbv zeta. unfold refreshed, enabled.
  destruct (shouldEnabled E C s) eqn:Hs; [|done].
  destruct (initLoader_frame (_currentWorkspaceRootPath s) reload
              (with_enabled true s)) as (Hr & Ha & Hn & He & Hw & Hf & Hc & _).
  by rewrite Hr, Ha, Hn, He, Hw, Hf, Hc.
Qed.

(** After [update] has run to its end the flag is the value computed at
    line 489, read on the frameworks the call has just assigned. *)
Lemma refreshed_enabled (reload : bool) (s : State) :
  let s' := refreshed E C reload s in
  enabled s' = shouldEnabled E C s'.
Proof.
  cbv zeta.
  destruct (refreshed_frame reload s) as (_ & _ & _ & Hw & Hf & _ & He).
  rewrite He. by apply shouldEnabled_ext.
Qed.

Lemma refresh_rejected (reload : bool) (s : State) (e : exn) :
  resolveFrameworks E C s = inl e →
  refresh E C reload s = rejected e s [].
Proof. intros H. unfold refresh. by rewrite H. Qed.

Lemma refresh_returned (reload : bool) (s s1 : State) (scanned : list effect) :
  resolveFrameworks E C s = inr (s1, scanned) →
  refresh E C reload s
  = returned (refreshed E C reload s1) (scanned ++ tailEffects E C reload s1).
Proof.
  intros H. unfold refresh, tailEffects, refreshed, announcedEnabled,
    announcedDisabled. rewrite H.
  pose proof (setEnabled_state (shouldEnabled E C s1) s1) as Hst.
  destruct (setEnabled E (shouldEnabled E C s1) s1) as [s2 fired].
  simpl in Hst. subst s2. unfold enabled. simpl.
  destruct (shouldEnabled E C s1); simpl; [|done].
  by destruct (initLoader _ reload _).
Qed.

Lemma update_unfold (event : option ConfigurationChangeEvent) (s : State) :
  update E C event s
  = if ignored E C event
    then returned (resetCache s) (filterEffects E C event)
    else
      let r := refresh E C (reloadRequested E C event) (resetCache s) in
      {| state := state r;
         effects := filterEffects E C event ++ effects r;
         thrown := thrown r |}.
Proof.
  unfold update, filterEffects, ignored, reloadRequested, eventLogs.
  destruct event as [ev|].
  - destruct (affectedKey E ev (Config.reloadConfigs C)) as [k1|];
      destruct (affectedKey E ev (Config.refreshConfigs C)) as [k2|];
      simpl; rewrite <- ?app_assoc; simpl; try done.
    by rewrite app_nil_r.
  - simpl. by destruct (refresh E C false (resetCache s)).
Qed.

(** The three ways in which [update] ends. *)
Lemma update_cases (event : option ConfigurationChangeEvent) (s : State) :
  (ignored E C event = true
   ∧ update E C event s = returned (resetCache s) (filterEffects E C event))
  ∨ (ignored E C event = false
     ∧ ∃ e, resolveFrameworks E C (resetCache s) = inl e
            ∧ update E C event s
              = rejected e (resetCache s) (filterEffects E C event))
  ∨ (ignored E C event = false
     ∧ ∃ s1 scanned,
         resolveFrameworks E C (resetCache s) = inr (s1, scanned)
         ∧ update E C event s
           = returned (refreshed E C (reloadRequested E C event) s1)
               (filterEffects E C event ++ scanned
                ++ tailEffects E C (reloadRequested E C event) s1)).
Proof.
  rewrite update_unfold. destruct (ignored E C event); [by left | right].
  destruct (resolveFrameworks E C (resetCache s)) as [e | [s1 scanned]] eqn:Hres.
  - left. split; [done |]. exists e. split; [done |].
    rewrite (refresh_rejected _ _ e Hres). simpl. by rewrite app_nil_r.
  - right. split; [done |]. exists s1, scanned. split; [done |].
    by rewrite (refresh_returned _ _ s1 scanned Hres).
Qed.

(** C1, amended. After every call to [update] that the event filter does
    not cut short (no event, or an event affecting a key of [reloadConfigs]
    or [refreshConfigs]) and that runs to its end, the enabled flag equals
    the conjunction: not disabled, at least one enabled framework, at least
    one enabled parser, locale paths defined, all read on the frameworks
    that the call has just assigned.  In particular the controller is then
    disabled whenever [localesPaths] is undefined. *)
Theorem update_enabled_is_conjunction
    (event : option ConfigurationChangeEvent) (s : State) :
  ignored E C event = false →
  thrown (update E C event s) = None →
  let s' := state (update E C event s) in
  enabled s'
  = negb (Config.disabled C)
    && ((0 <? length (enabledFrameworks s'))
        && (0 <? length (enabledParsers E C s')))
    && bool_decide (is_Some (localesPaths C s'))
  ∧ (localesPaths C s' = None → enabled s' = false).
Proof.
  intros Hign Hret s'. subst s'.
  destruct (update_cases event s)
    as [(Hi & Hu) | [(_ & e & _ & Hu) | (_ & s1 & scanned & _ & Hu)]].
  { congruence. }
  { rewrite Hu in Hret. done. }
  rewrite Hu. simpl.
  pose proof (refreshed_enabled (reloadRequested E C event) s1) as He.
  split; [exact He |].
  intros Hnone. rewrite He. unfold shouldEnabled, hasLocalesSet.
  rewrite Hnone. rewrite bool_decide_eq_false_2; [apply andb_false_r |].
  by intros [? ?].
Qed.

Lemma elem_of_disposals (n : nat) (d : gset nat) (ls : list LocaleLoader) :
  n ∈ foldr (fun l d => {[loader_id l]} ∪ d) d ls
  ↔ n ∈ d ∨ ∃ l, l ∈ ls ∧ loader_id l = n.
Proof.
  induction ls as [|l ls IH]; simpl.
  - split; [by left | intros [H | (l & Hl & _)]; [done | inversion Hl]].
  - rewrite elem_of_union, elem_of_singleton, IH. split.
    + intros [-> | [H | (l' & Hl' & Hn)]].
      * right. exists l. split; [by left | done].
      * by left.
      * right. exists l'. split; [by right | done].
    + intros [H | (l' & Hl' & Hn)]; [right; by left |].
      inversion Hl'; subst; [by left |]. right. right. by exists l'.
Qed.

(** C8. Whenever [update] computes a disabled result, that is, it is not
    cut short, runs to its end and leaves the flag off, the registry is
    emptied and every loader it held, for whatever root, has been disposed;
    loaders disposed earlier stay disposed. *)
Theorem update_disabled_disposes_every_loader
    (event : option ConfigurationChangeEvent) (s : State) :
  ignored E C event = false →
  thrown (update E C event s) = None →
  let s' := state (update E C event s) in
  enabled s' = false →
  _loaders s' = ∅
  ∧ (∀ root l, _loaders s !! root = Some l → loader_id l ∈ disposed s')
  ∧ disposed s ⊆ disposed s'.
Proof.
  intros Hign Hret s'. subst s'.
  destruct (update_cases event s)
    as [(Hi & Hu) | [(_ & e & _ & Hu) | (_ & s1 & scanned & Hres & Hu)]].
  { congruence. }
  { rewrite Hu in Hret. done. }
  rewrite Hu. simpl. intros Hoff.
  destruct (refreshed_frame (reloadRequested E C event) s1)
    as (_ & _ & _ & _ & _ & _ & He).
  rewrite Hoff in He. symmetry in He.
  destruct (resolveFrameworks_frame _ _ _ Hres)
    as (Hl & _ & _ & _ & _ & _ & _ & Hd & _).
  unfold refreshed. rewrite He. simpl. split_and!; [done | |].
  - intros root l Hroot. apply elem_of_disposals. right. exists l.
    split; [|done]. unfold loaderValues. simpl. rewrite Hl. simpl.
    apply list_elem_of_fmap. exists (root, l). split; [done |].
    by apply elem_of_map_to_list.
  - intros n Hn. apply elem_of_disposals. left. by rewrite Hd.
Qed.

(** C6, amended. An event that affects no key of the three allow-lists
    makes [update] return early with no effect on the outside; the enabled
    flag, the enabled frameworks, the nearest framework path, the loader
    registry and the disposed loaders are untouched.  The usage-match cache
    is not preserved: it is emptied, as [resetCache] runs before the event
    is examined. *)
Theorem update_unrelated_event_only_resets_cache
    (event : ConfigurationChangeEvent) (s : State) :
  affectedKey E event (Config.reloadConfigs C) = None →
  affectedKey E event (Config.refreshConfigs C) = None →
  affectedKey E event (Config.usageRefreshConfigs C) = None →
  update E C (Some event) s = returned (resetCache s) []
  ∧ enabled (resetCache s) = enabled s
  ∧ enabledFrameworks (resetCache s) = enabledFrameworks s
  ∧ _nearestEnabledFrameworkPath (resetCache s) = _nearestEnabledFrameworkPath s
  ∧ _loaders (resetCache s) = _loaders s
  ∧ disposed (resetCache s) = disposed s
  ∧ _cacheUsageMatchRegex (resetCache s) = ∅.
Proof.
  intros H1 H2 H3. unfold update. by rewrite H1, H2, H3.
Qed.


(** *** Two updates in a row *)

Lemma State_eq (a b : State) :
  _loaders a = _loaders b →
  _currentWorkspaceRootPath a = _currentWorkspaceRootPath b →
  _currentActiveFilePath a = _currentActiveFilePath b →
  _nearestEnabledFrameworkPath a = _nearestEnabledFrameworkPath b →
  _enabled a = _enabled b →
  _currentWorkspaceFolder a = _currentWorkspaceFolder b →
  enabledFrameworks a = enabledFrameworks b →
  _cacheUsageMatchRegex a = _cacheUsageMatchRegex b →
  created a = created b →
  disposed a = disposed b →
  a = b.
Proof. destruct a, b. simpl. intros. by subst. Qed.

Lemma resolveFrameworks_again (s s1 s' : State) (scanned : list effect) :
  resolveFrameworks E C s = inr (s1, scanned) →
  _currentWorkspaceRootPath s' = _currentWorkspaceRootPath s →
  _currentActiveFilePath s' = _currentActiveFilePath s →
  enabledFrameworks s' = enabledFrameworks s1 →
  _nearestEnabledFrameworkPath s' = _nearestEnabledFrameworkPath s1 →
  resolveFrameworks E C s' = inr (s', scanned).
Proof.
  unfold resolveFrameworks. intros Hres Hr Hc. rewrite Hr, Hc.
  destruct (Config.enabledFrameworks C) as [ids|].
  - injection Hres as <- <-. simpl. intros Hf _. rewrite <- Hf. by destruct s'.
  - destruct (findNearestEnabledFrameworks _ _ _)
      as [e' | [[fws nearest] visited]]; simpl in *; [done |].
    injection Hres as <- <-. simpl. intros Hf Hn. rewrite <- Hf, <- Hn.
    by destruct s'.
Qed.

Lemma resolveFrameworks_throws_again (s s' : State) (e : exn) :
  resolveFrameworks E C s = inl e →
  _currentWorkspaceRootPath s' = _currentWorkspaceRootPath s →
  _currentActiveFilePath s' = _currentActiveFilePath s →
  resolveFrameworks E C s' = inl e.
Proof.
  rewrite !resolveFrameworks_throws. intros [Hc Hf] Hr Ha. by rewrite Hr, Ha.
Qed.

Lemma refreshed_settled (reload : bool) (s s1 : State) (scanned : list effect) :
  resolveFrameworks E C s = inr (s1, scanned) →
  _cacheUsageMatchRegex s = ∅ →
  settled E C (refreshed E C reload s1).
Proof.
  intros Hres Hcache.
  destruct (resolveFrameworks_frame _ _ _ Hres)
    as (_ & Hr1 & Ha1 & _ & _ & Hc1 & _).
  destruct (refreshed_frame reload s1) as (Hr & Ha & Hn & Hw & Hf & Hc & He).
  unfold settled. split_and!.
  - exists scanned. apply (resolveFrameworks_again s s1); congruence.
  - apply refreshed_enabled.
  - congruence.
  - unfold enabled in He. rewrite He. unfold refreshed.
    destruct (shouldEnabled E C s1); [|by simpl].
    unfold initLoader. simpl.
    destruct (_currentWorkspaceRootPath s1) as [root|] eqn:Hroot.
    2:{ simpl. intros root'. by rewrite Hroot. }
    destruct (String.eqb root "") eqn:Hroot0.
    { simpl. rewrite Hroot. intros root' [= <-] Hne.
      by apply String.eqb_eq in Hroot0. }
    destruct (bool_decide _ && negb reload) eqn:Hhave; simpl.
    + rewrite Hroot. intros root' [= <-] _.
      apply andb_true_iff in Hhave as [Hhave _].
      by apply bool_decide_eq_true in Hhave.
    + rewrite Hroot. intros root' [= <-] _. rewrite lookup_insert_eq. by eexists.
Qed.

Lemma scans_not_notifications (visited : list string) :
  List.filter isNotification (map ScanFolder visited) = [].
Proof. induction visited; simpl; done. Qed.

Lemma scans_not_inits (visited : list string) (l : LocaleLoader) :
  LoaderInit l ∉ map ScanFolder visited.
Proof.
  intros Hin. apply list_elem_of_fmap in Hin as (folder & Heq & _). done.
Qed.

Lemma announcedDisabled_quiet (s : State) :
  List.filter isNotification (announcedDisabled E C s) = []
  ∧ ∀ l, LoaderInit l ∉ announcedDisabled E C s.
Proof.
  unfold announcedDisabled.
  destruct (negb (Config.disabled C)); [|split; [done | intros l Hin; inversion Hin]].
  destruct (negb (isValidProject E C s) && hasLocalesSet C s);
    destruct (isValidProject E C s && negb (hasLocalesSet C s)
              && Config.autoDetection C); simpl.
  all: split; [done |]; intros l Hin.
  all: repeat (apply elem_of_cons in Hin as [Hin | Hin]; [done |]).
  all: inversion Hin.
Qed.

(** On a settled state the part of [update] that follows the assignment
    of the frameworks changes nothing and fires loader-changed alone. *)
Lemma settled_tail (s : State) :
  settled E C s →
  refreshed E C false s = s
  ∧ List.filter isNotification (tailEffects E C false s)
    = [FireDidChangeLoader (loader s)]
  ∧ ∀ l, LoaderInit l ∉ tailEffects E C false s.
Proof.
  intros (_ & Hen & Hcache & Hload).
  assert (Hsame : refreshed E C false s = s).
  { unfold refreshed. rewrite <- Hen. destruct (_enabled s) eqn:Hon.
    - assert (Hs : with_enabled true s = s) by (rewrite <- Hon; by destruct s).
      rewrite Hs. unfold initLoader.
      destruct (_currentWorkspaceRootPath s) as [root|] eqn:Hroot; [|done].
      destruct (String.eqb root "") eqn:Hroot0; [done |].
      apply String.eqb_neq in Hroot0.
      by rewrite bool_decide_eq_true_2 by (by apply Hload).
    - unfold unloadAll, loaderValues. simpl. rewrite Hload.
      rewrite map_to_list_empty. simpl.
      apply State_eq; simpl; done. }
  unfold tailEffects. rewrite Hsame, setEnabled_effects, <- Hen, Bool.eqb_reflx.
  simpl. destruct (_enabled s) eqn:Hon.
  - assert (Hs : with_enabled true s = s) by (rewrite <- Hon; by destruct s).
    rewrite Hs.
    assert (Hinit : (initLoader (_currentWorkspaceRootPath s) false s).2 = []
                    ∨ (initLoader (_currentWorkspaceRootPath s) false s).2
                      = [CheckNotification]).
    { unfold initLoader.
      destruct (_currentWorkspaceRootPath s) as [root|] eqn:Hroot; [|by left].
      destruct (String.eqb root "") eqn:Hroot0; [by left |].
      apply String.eqb_neq in Hroot0.
      rewrite bool_decide_eq_true_2 by (by apply Hload). by right. }
    split; [done |]. unfold announcedEnabled.
    destruct Hinit as [-> | ->]; simpl.
    all: split; [done |]; intros l Hin.
    all: repeat (apply elem_of_cons in Hin as [Hin | Hin]; [done |]).
    all: inversion Hin.
  - destruct (announcedDisabled_quiet s) as [Hq1 Hq2].
    split; [done |]. rewrite List.filter_app, Hq1. simpl. split; [done |].
    intros l Hin. apply elem_of_app in Hin as [Hin | Hin]; [by apply Hq2 in Hin |].
    apply elem_of_cons in Hin as [Hin | Hin]; [done | inversion Hin].
Qed.

(** C7, amended. After an [update] that was not cut short, a second
    [update({})] under the same configuration and environment leaves the
    whole state, and so the enabled flag and every derived setting, as it
    is; it fires no enabled-changed event and creates no loader.  If the
    first call ran to its end, so does the second, and it still fires
    exactly one notification, loader-changed, as every [update] that runs
    to its end does; if the first call threw, the second throws the same
    exception and fires nothing. *)
Theorem update_twice_is_stable
    (event : option ConfigurationChangeEvent) (s : State) :
  ignored E C event = false →
  let first := update E C event s in
  let s1 := state first in
  let second := update E C None s1 in
  state second = s1
  ∧ thrown second = thrown first
  ∧ List.filter isNotification (effects second)
    = match thrown first with
      | None => [FireDidChangeLoader (loader s1)]
      | Some _ => []
      end
  ∧ (∀ value, FireDidChangeEnabled value ∉ effects second)
  ∧ (∀ l, LoaderInit l ∉ effects second)
  ∧ setEnabled E (_enabled s1) s1 = (s1, []).
Proof.
  intros Hign first s1 second.
  assert (Hsame : setEnabled E (_enabled s1) s1 = (s1, [])).
  { unfold setEnabled. by rewrite Bool.eqb_reflx. }
  assert (Hfire : ∀ value,
            List.filter isNotification (effects second) = []
            ∨ List.filter isNotification (effects second)
              = [FireDidChangeLoader (loader s1)] →
            FireDidChangeEnabled value ∉ effects second).
  { intros value Hcases Hin.
    assert (Hin' : FireDidChangeEnabled value
                   ∈ List.filter isNotification (effects second)).
    { apply list_elem_of_In, List.filter_In.
      split; [by apply list_elem_of_In | done]. }
    destruct Hcases as [Hn | Hn]; rewrite Hn in Hin'.
    - inversion Hin'.
    - apply elem_of_cons in Hin' as [Hin' | Hin']; [done | inversion Hin']. }
  subst first s1 second.
  destruct (update_cases event s)
    as [(Hi & Hu) | [(_ & e & Hres & Hu) | (_ & s1 & scanned & Hres & Hu)]].
  { congruence. }
  - rewrite Hu in *. cbn [state effects thrown returned rejected] in *. clear Hu.
    destruct (update_cases None (resetCache s))
      as [(Hi & _) | [(_ & e' & Hres' & Hu') | (_ & s1' & scanned' & Hres' & _)]].
    { done. }
    2:{ change (resetCache (resetCache s)) with (resetCache s) in Hres'.
        congruence. }
    change (resetCache (resetCache s)) with (resetCache s) in *.
    assert (e' = e) as -> by congruence.
    rewrite Hu' in *. cbn [state effects thrown returned rejected] in *.
    split_and!; try done.
    + intros value. apply Hfire. by left.
    + intros l Hin. inversion Hin.
  - rewrite Hu in *. cbn [state effects thrown returned rejected] in *. clear Hu.
    set (s' := refreshed E C (reloadRequested E C event) s1) in *.
    assert (Hset : settled E C s').
    { by apply (refreshed_settled _ (resetCache s) s1 scanned). }
    assert (Hreset : resetCache s' = s').
    { destruct Hset as (_ & _ & Hcache & _).
      unfold resetCache. rewrite <- Hcache. by destruct s'. }
    destruct (settled_tail s' Hset) as (Hst & Hn & Hi).
    destruct Hset as ((scanned' & Hres') & _).
    destruct (resolveFrameworks_frame _ _ _ Hres')
      as (_ & _ & _ & _ & _ & _ & _ & _ & visited & ->).
    assert (Hu' : update E C None s'
                  = returned s' (map ScanFolder visited
                                 ++ tailEffects E C false s')).
    { rewrite update_unfold. simpl. rewrite Hreset.
      rewrite (refresh_returned _ _ s' _ Hres'), Hst. done. }
    rewrite Hu' in *. cbn [state effects thrown returned rejected] in *.
    assert (Hnote : List.filter isNotification
                      (map ScanFolder visited ++ tailEffects E C false s')
                    = [FireDidChangeLoader (loader s')]).
    { by rewrite List.filter_app, scans_not_notifications. }
    split_and!; try done.
    + intros value. apply Hfire. by right.
    + intros l Hin. apply elem_of_app in Hin as [Hin | Hin].
      * by apply scans_not_inits in Hin.
      * by apply Hi in Hin.
Qed.

End GlobalFacts.

(** *** The controller on the sample workspace *)

Example running_enabled :
  Global.enabled Sample.running = true
  ∧ map id (Global.enabledFrameworks Sample.running) = ["vue"]
  ∧ Global._nearestEnabledFrameworkPath Sample.running = Some "/ws/app"
  ∧ Global.loader Sample.running
    = Some {| Global.loader_id := 0; Global.rootpath := "/ws" |}.
Proof. vm_compute. done. Qed.

(** The controller started on an untitled document: the root is stored,
    no active path is, and the hand-set framework list enables it. *)
Example pinned_enabled :
  Global._currentWorkspaceRootPath Sample.pinned = Some "/ws"
  ∧ Global._currentActiveFilePath Sample.pinned = None
  ∧ Global.enabled Sample.pinned = true
  ∧ map id (Global.enabledFrameworks Sample.pinned) = ["vue"]
  ∧ Global.thrown
      (Global.updateRootPaths Sample.env Sample.configPinned Sample.untitled
         Sample.fresh) = None.
Proof. vm_compute. done. Qed.

(** C1: a call that throws, and a call that the event filter cuts short,
    leave the flag as it was, whatever the configuration now says.  The
    controller is enabled with a hand-set framework list while the editor
    shows an untitled document.  The list is then removed and the extension
    switched off, in one change.  The [update] for that change passes the
    event filter and throws in [findNearestEnabledFrameworks], no active
    path being stored; the [update] for a later, unrelated change returns
    at the event filter.  After either call the flag is on although the
    extension is disabled. *)
Lemma update_enabled_stale_after_cut_short_call :
  let E := Sample.env in
  let C := Sample.configUnpinnedOff in
  let conjunction := fun s' =>
    negb (Config.disabled C)
    && ((0 <? length (Global.enabledFrameworks s'))
        && (0 <? length (Global.enabledParsers E C s')))
    && bool_decide (is_Some (Global.localesPaths C s')) in
  let first := Global.update E C (Some Sample.unpinChange) Sample.pinned in
  let second :=
    Global.update E C (Some Sample.unrelatedChange) (Global.state first) in
  Global.ignored E C (Some Sample.unpinChange) = false
  ∧ Global.thrown first = Some TypeError
  ∧ Global.enabled (Global.state first) = true
  ∧ conjunction (Global.state first) = false
  ∧ Global.ignored E C (Some Sample.unrelatedChange) = true
  ∧ Global.thrown second = None
  ∧ Global.enabled (Global.state second) = true
  ∧ conjunction (Global.state second) = false.
Proof. vm_compute. done. Qed.

Lemma update_enabled_is_conjunction_witness :
  let s' := Global.state (Global.update Sample.env Sample.configOff
                            (Some Sample.reloadChange) Sample.running) in
  Global.enabled s'
  = negb (Config.disabled Sample.configOff)
    && ((0 <? length (Global.enabledFrameworks s'))
        && (0 <? length (Global.enabledParsers Sample.env Sample.configOff s')))
    && bool_decide (is_Some (Global.localesPaths Sample.configOff s'))
  ∧ (Global.localesPaths Sample.configOff s' = None → Global.enabled s' = false).
Proof.
  apply (update_enabled_is_conjunction Sample.env Sample.configOff
           (Some Sample.reloadChange) Sample.running).
  - vm_compute. reflexivity.
  - vm_compute. reflexivity.
Defined.

(** C6: the cache is emptied before the event is looked at. *)
Lemma update_unrelated_event_clears_cache :
  let key := "vue_/ws/app/src/x/App.vue" in
  let s' := Global.state (Global.update Sample.env Sample.config
                            (Some Sample.unrelatedChange) Sample.queried) in
  Global.affectedKey Sample.env Sample.unrelatedChange
    (Config.reloadConfigs Sample.config) = None
  ∧ Global.affectedKey Sample.env Sample.unrelatedChange
      (Config.refreshConfigs Sample.config) = None
  ∧ Global.affectedKey Sample.env Sample.unrelatedChange
      (Config.usageRefreshConfigs Sample.config) = None
  ∧ Global._cacheUsageMatchRegex Sample.queried !! key
    = Some [{| source := "\$t\(({key})\)"; flags := "gm" |}]
  ∧ Global._cacheUsageMatchRegex s' !! key = None.
Proof. vm_compute. done. Qed.

Lemma update_unrelated_event_only_resets_cache_witness :
  Global.update Sample.env Sample.config (Some Sample.unrelatedChange)
    Sample.queried
  = Global.returned (Global.resetCache Sample.queried) []
  ∧ Global.enabled (Global.resetCache Sample.queried)
    = Global.enabled Sample.queried
  ∧ Global.enabledFrameworks (Global.resetCache Sample.queried)
    = Global.enabledFrameworks Sample.queried
  ∧ Global._nearestEnabledFrameworkPath (Global.resetCache Sample.queried)
    = Global._nearestEnabledFrameworkPath Sample.queried
  ∧ Global._loaders (Global.resetCache Sample.queried)
    = Global._loaders Sample.queried
  ∧ Global.disposed (Global.resetCache Sample.queried)
    = Global.disposed Sample.queried
  ∧ Global._cacheUsageMatchRegex (Global.resetCache Sample.queried) = ∅.
Proof.
  apply (update_unrelated_event_only_resets_cache Sample.env Sample.config
           Sample.unrelatedChange Sample.queried); vm_compute; reflexivity.
Defined.

(** C7: the second of two updates in a row still fires loader-changed. *)
Lemma update_twice_fires_loader_changed :
  let first := Global.update Sample.env Sample.config None Sample.opened in
  let second :=
    Global.update Sample.env Sample.config None (Global.state first) in
  Global.thrown first = None
  ∧ Global.thrown second = None
  ∧ List.filter Global.isNotification (Global.effects second)
    = [Global.FireDidChangeLoader
         (Some {| Global.loader_id := 0; Global.rootpath := "/ws" |})].
Proof. vm_compute. done. Qed.

Lemma update_twice_is_stable_witness :
  let first := Global.update Sample.env Sample.config None Sample.opened in
  let s1 := Global.state first in
  let second := Global.update Sample.env Sample.config None s1 in
  Global.state second = s1
  ∧ Global.thrown second = Global.thrown first
  ∧ List.filter Global.isNotification (Global.effects second)
    = match Global.thrown first with
      | None => [Global.FireDidChangeLoader (Global.loader s1)]
      | Some _ => []
      end
  ∧ (∀ value, Global.FireDidChangeEnabled value ∉ Global.effects second)
  ∧ (∀ l, Global.LoaderInit l ∉ Global.effects second)
  ∧ Global.setEnabled Sample.env (Global._enabled s1) s1 = (s1, []).
Proof.
  apply (update_twice_is_stable Sample.env Sample.config None Sample.opened).
  reflexivity.
Defined.

Lemma update_disabled_disposes_every_loader_witness :
  let s' := Global.state (Global.update Sample.env Sample.configOff
                            (Some Sample.reloadChange) Sample.running) in
  Global._loaders s' = ∅
  ∧ (∀ root l, Global._loaders Sample.running !! root = Some l →
               Global.loader_id l ∈ Global.disposed s')
  ∧ Global.disposed Sample.running ⊆ Global.disposed s'.
Proof.
  apply (update_disabled_disposes_every_loader Sample.env Sample.configOff
           (Some Sample.reloadChange) Sample.running); vm_compute; reflexivity.
Defined.

Example running_loader_disposed :
  let s' := Global.state (Global.update Sample.env Sample.configOff
                            (Some Sample.reloadChange) Sample.running) in
  Global._loaders Sample.running !! "/ws"
  = Some {| Global.loader_id := 0; Global.rootpath := "/ws" |}
  ∧ Global.enabled s' = false
  ∧ bool_decide (0 ∈ Global.disposed s') = true.
Proof. vm_compute. done. Qed.

Lemma enabledParsers_falls_back_to_default_witness :
  Global.enabledParserIds Sample.env Sample.config Sample.running
  = DefaultEnabledParsers Sample.env
  ∧ Global.enabledParsers Sample.env Sample.config Sample.running
    = List.filter
        (fun i => includes (DefaultEnabledParsers Sample.env) (parser_id i))
        (AvailableParsers Sample.env)
  ∧ ((0 <? length (Global.enabledParsers Sample.env Sample.config Sample.running))
     = false ↔
     ∀ p, p ∈ AvailableParsers Sample.env →
          parser_id p ∉ DefaultEnabledParsers Sample.env).
Proof.
  apply (enabledParsers_falls_back_to_default Sample.env Sample.config
           Sample.running).
  - left. reflexivity.
  - vm_compute. reflexivity.
Defined.

Lemma getUsageMatchRegex_custom_ignores_arguments_witness :
  let E := Sample.env in
  let C := Sample.configCustom in
  let s := Sample.running in
  let expected :=
    normalizeUsageMatchRegex E
      (["translate\(({key})\)"] ++ Config._regexUsageMatchAppend C) in
  let r1 := Global.getUsageMatchRegex E C (Some "vue") (Some "/ws/a.vue") s in
  let r2 := Global.getUsageMatchRegex E C None None s in
  let r12 := Global.getUsageMatchRegex E C None None r1.2 in
  r1.1 = r2.1
  ∧ r12.1 = r1.1
  ∧ Global._cacheUsageMatchRegex r1.2 !! "custom" = Some r1.1
  ∧ (∀ key, key ≠ "custom" →
       Global._cacheUsageMatchRegex r1.2 !! key
       = Global._cacheUsageMatchRegex s !! key)
  ∧ (∀ fws, (Global.getUsageMatchRegex E C (Some "vue") (Some "/ws/a.vue")
               (Global.with_frameworks fws s)).1 = r1.1)
  ∧ (Global.customCacheFresh E C s →
     r1.1 = expected ∧ Global.customCacheFresh E C r1.2).
Proof.
  apply (getUsageMatchRegex_custom_ignores_arguments Sample.env
           Sample.configCustom ["translate\(({key})\)"]
           (Some "vue") (Some "/ws/a.vue") None None Sample.running).
  reflexivity.
Defined.

(** * Further properties of the manifest parsers *)

Section Parsers.
Context (H : Host).

Lemma bind_inl {A B} (m : throws A) (k : A → throws B) (e : exn) :
  bind m k = inl e ↔ m = inl e ∨ ∃ a, m = inr a ∧ k a = inl e.
Proof.
  destruct m as [e' | a]; simpl.
  - split; [intros [= ->]; by left | intros [[= ->] | (a & Ha & _)]; done].
  - split; [intros Hk; right; by exists a | intros [Hm | (a' & [= ->] & Hk)]; done].
Qed.

Lemma bind_inr {A B} (m : throws A) (k : A → throws B) (b : B) :
  bind m k = inr b ↔ ∃ a, m = inr a ∧ k a = inr b.
Proof.
  destruct m as [e' | a]; simpl.
  - split; [done | intros (a & Ha & _); done].
  - split; [intros Hk; by exists a | intros (a' & [= ->] & Hk); done].
Qed.

Lemma Object_keys_fails (v : json) (e : exn) :
  Object_keys v = inl e ↔ v = JNull ∧ e = TypeError.
Proof.
  destruct v; simpl; (split; [intros Hk | intros [Hv He]]); try done.
  - by injection Hk as <-.
  - by subst.
Qed.

Lemma block_keys (k : string) (props : list (string * json)) :
  blockOk k props →
  (let? v := destructure k (JObj props) in Object_keys v)
  = inr (blockNames k props).
Proof.
  intros Hok. unfold blockNames, blockOk in *. simpl.
  destruct (assoc k props) as [v|]; [|done].
  destruct (Hok v eq_refl) as (entries & ->). done.
Qed.

Lemma indexLe_transitive : Transitive indexLe.
Proof. intros a b c. unfold indexLe. lia. Qed.

Lemma indexLe_total : Total indexLe.
Proof. intros a b. unfold indexLe. lia. Qed.

(** The order of [Object.keys]. *)
Lemma ownKeys_order (entries : list (string * json)) :
  ∃ indices,
    ownKeys entries
    = indices ++ List.filter (fun name => negb (isIndex name)) entries.*1
    ∧ indices ≡ₚ List.filter isIndex entries.*1
    ∧ StronglySorted indexLe indices.
Proof.
  exists (merge_sort indexLe (List.filter isIndex entries.*1)).
  split_and!; [done | apply merge_sort_Permutation |].
  apply StronglySorted_merge_sort;
    [apply indexLe_transitive | apply indexLe_total].
Qed.

(** X1. A package.json that parses to an object whose three dependency
    blocks are each absent or an object yields the names of "dependencies",
    then of "devDependencies", then of "peerDependencies", with the names
    that several blocks declare repeated; an absent block contributes
    nothing.  Within a block the names come as [Object.keys] lists them,
    which is not always the order of the file: the names that are array
    indices ("0", "7", "42") first, in ascending numeric order, then all
    the others in the order of the file. *)
Theorem parserRaw_default_names (raw : string) (props : list (string * json)) :
  JSON_parse H raw = inr (JObj props) →
  blockOk "dependencies" props →
  blockOk "devDependencies" props →
  blockOk "peerDependencies" props →
  parserRaw PackageJSONParser H raw
  = inr (blockNames "dependencies" props
         ++ blockNames "devDependencies" props
         ++ blockNames "peerDependencies" props)
  ∧ (∀ k, assoc k props = None → blockNames k props = [])
  ∧ (∀ k entries, assoc k props = Some (JObj entries) →
       ∃ indices,
         blockNames k props
         = indices
           ++ List.filter (fun name => negb (isIndex name)) entries.*1
         ∧ indices ≡ₚ List.filter isIndex entries.*1
         ∧ StronglySorted indexLe indices).
Proof.
  intros Hparse H1 H2 H3. split_and!.
  - simpl. unfold parserRaw_default. rewrite Hparse.
    unfold blockNames, blockOk in *. simpl.
    destruct (assoc "dependencies" props) as [v1|];
      [destruct (H1 v1 eq_refl) as (e1 & ->) |];
      (destruct (assoc "devDependencies" props) as [v2|];
        [destruct (H2 v2 eq_refl) as (e2 & ->) |]);
      (destruct (assoc "peerDependencies" props) as [v3|];
        [destruct (H3 v3 eq_refl) as (e3 & ->) |]); done.
  - intros k Hk. unfold blockNames. by rewrite Hk.
  - intros k entries Hk. unfold blockNames. rewrite Hk.
    apply ownKeys_order.
Qed.

Lemma destructure_fails (k : string) (v : json) (e : exn) :
  destructure k v = inl e ↔ v = JNull ∧ e = TypeError.
Proof.
  destruct v; simpl; (split; [intros Hk | intros [Hv He]]); try done.
  - by injection Hk as <-.
  - by subst.
  - by destruct (assoc k props).
Qed.

Lemma destructure_null (k : string) (v : json) :
  destructure k v = inr JNull ↔
  ∃ props, v = JObj props ∧ assoc k props = Some JNull.
Proof.
  destruct v; simpl; split; try done; try (by intros (? & ? & ?)).
  - destruct (assoc k props) as [x|] eqn:Ha; [|done].
    intros [= ->]. by exists props.
  - intros (props' & [= <-] & ->). done.
Qed.

(** X2. The package.json parser fails in exactly three situations: the
    text is not valid JSON (the error of [JSON.parse]), the document is
    [null], or one of the three dependency blocks is [null] (a TypeError).
    Any other document, a number or an array for instance, is accepted. *)
Theorem parserRaw_default_fails_iff (raw : string) (e : exn) :
  parserRaw PackageJSONParser H raw = inl e ↔
  JSON_parse H raw = inl e
  ∨ (e = TypeError
     ∧ (JSON_parse H raw = inr JNull
        ∨ ∃ props, JSON_parse H raw = inr (JObj props)
                   ∧ (assoc "dependencies" props = Some JNull
                      ∨ assoc "devDependencies" props = Some JNull
                      ∨ assoc "peerDependencies" props = Some JNull))).
Proof.
  simpl. unfold parserRaw_default.
  destruct (JSON_parse H raw) as [e0 | obj]; simpl.
  { split; [intros [= ->]; by left | intros [[= ->] | (_ & [? | (? & ? & _)])]; done]. }
  destruct (destructure "dependencies" obj) as [e1 | v1] eqn:H1; simpl.
  { apply destructure_fails in H1 as [-> ->].
    split; [intros [= <-]; right; split; [done | by left] |].
    intros [? | (-> & _)]; done. }
  destruct (destructure "devDependencies" obj) as [e2 | v2] eqn:H2; simpl.
  { apply destructure_fails in H2 as [-> ->]. done. }
  destruct (destructure "peerDependencies" obj) as [e3 | v3] eqn:H3; simpl.
  { apply destructure_fails in H3 as [-> ->]. done. }
  assert (Hnotnull : obj ≠ JNull) by (intros ->; done).
  assert (Hkeys : ∀ k v, destructure k obj = inr v →
            (Object_keys v = inl TypeError ↔
             ∃ props, obj = JObj props ∧ assoc k props = Some JNull)).
  { intros k v Hd. rewrite Object_keys_fails. split.
    - intros [-> _]. by apply destructure_null.
    - intros Hex. apply destructure_null in Hex. rewrite Hd in Hex.
      by injection Hex as ->. }
  pose proof (Hkeys _ _ H1) as K1. pose proof (Hkeys _ _ H2) as K2.
  pose proof (Hkeys _ _ H3) as K3.
  destruct (Object_keys v1) as [x1 | k1] eqn:O1; simpl.
  { apply Object_keys_fails in O1 as [-> ->].
    destruct K1 as [K1 _]. destruct (K1 eq_refl) as (props & -> & Ha).
    split; [intros [= <-]; right; split; [done |]; right; exists props; auto |].
    intros [? | (-> & _)]; done. }
  destruct (Object_keys v2) as [x2 | k2] eqn:O2; simpl.
  { apply Object_keys_fails in O2 as [-> ->].
    destruct K2 as [K2 _]. destruct (K2 eq_refl) as (props & -> & Ha).
    split; [intros [= <-]; right; split; [done |]; right; exists props; auto |].
    intros [? | (-> & _)]; done. }
  destruct (Object_keys v3) as [x3 | k3] eqn:O3; simpl.
  { apply Object_keys_fails in O3 as [-> ->].
    destruct K3 as [K3 _]. destruct (K3 eq_refl) as (props & -> & Ha).
    split; [intros [= <-]; right; split; [done |]; right; exists props; auto |].
    intros [? | (-> & _)]; done. }
  split; [done |].
  intros [? | (-> & [[= ->] | (props & [= ->] & [Ha | [Ha | Ha]])])]; try done.
  - destruct K1 as [_ K1]. by discriminate K1; exists props.
  - destruct K2 as [_ K2]. by discriminate K2; exists props.
  - destruct K3 as [_ K3]. by discriminate K3; exists props.
Qed.


End Parsers.

(** * Further properties of [load] *)

Section Load.
Context (P : PackageParser) (H : Host).

Lemma scan_directory (root : string) (es : list (string * node)) :
  ∃ paths,
    scan P root (Dir es) = inr paths
    ∧ ∀ q, q ∈ paths ↔ found (filename P) (ignoreDirectories P) root es q.
Proof.
  unfold scan.
  destruct (traverseDirectory_ok (filename P) (ignoreDirectories P) (Dir es)
              root es
              (if existsSync (Dir es) (filename P)
               then SetAdd (Path.join [root; filename P]) [] else [])
              eq_refl) as (paths & Hrun & _ & Hspec).
  exists paths. split; [done |]. intros q. rewrite Hspec. unfold found.
  destruct (existsSync (Dir es) (filename P)) eqn:Hex.
  - rewrite elem_of_SetAdd. split; [|by right].
    intros [[Hq | Hq] | Hq]; [inversion Hq | by left | done].
  - split; [|by right]. intros [Hq | Hq]; [inversion Hq | done].
Qed.

(** X26. [load] on a root that is a file does not return: no manifest is
    looked for below it, the [readdirSync] of the traversal throws ENOTDIR
    outside the [try] block, and the exception leaves [load] with nothing
    logged, whatever the parser and the host. *)
Theorem load_on_file_root_throws (root content : string) :
  scan P root (File content) = inl (FsError "ENOTDIR")
  ∧ load P H root (File content) = (inl (FsError "ENOTDIR"), []).
Proof. done. Qed.

Lemma parseAll_succeeds_iff (paths data0 data : list string) :
  parseAll P H paths data0 = inr data ↔
  ∃ ds, Forall2 (parsesTo P H) paths ds ∧ data = data0 ++ concat ds.
Proof.
  revert data0. induction paths as [|p paths IH]; intros data0; simpl.
  - split.
    + intros [= <-]. exists []. split; [constructor | by rewrite app_nil_r].
    + intros (ds & Hall & ->). inversion Hall. simpl. by rewrite app_nil_r.
  - split.
    + destruct (loadFile H p) as [e | raw] eqn:Hread; simpl; [done |].
      destruct (parserRaw P H raw) as [e | deps] eqn:Hparse; simpl; [done |].
      intros Hrest. apply IH in Hrest as (ds & Hall & ->).
      exists (deps :: ds). split.
      * constructor; [by exists raw | done].
      * simpl. by rewrite app_assoc.
    + intros (ds & Hall & ->).
      inversion Hall as [|p' deps paths' ds' (raw & Hread & Hparse) Hrest]; subst.
      rewrite Hread. simpl. rewrite Hparse. simpl.
      apply IH. exists ds'. split; [done |]. simpl. by rewrite app_assoc.
Qed.

(** X5. [load] returns a list of names exactly when at least one manifest
    was found and every manifest found could be read and parsed; the list
    is then the concatenation, in the order of the scan, of what each
    manifest declares. *)
Theorem load_returns_names_in_scan_order (root : string) (rootDir : node)
    (data : list string) :
  (load P H root rootDir).1 = inr (Some data) ↔
  ∃ paths ds,
    scan P root rootDir = inr paths
    ∧ paths ≠ []
    ∧ Forall2 (parsesTo P H) paths ds
    ∧ data = concat ds.
Proof.
  unfold load. destruct (scan P root rootDir) as [e | paths]; simpl.
  { split; [done | intros (? & ? & ? & _); done]. }
  destruct paths as [|p paths]; simpl length.
  { simpl. split; [done | intros (? & ? & [= <-] & ? & _); done]. }
  change (S (length paths) =? 0) with false. cbv iota.
  destruct (parseAll P H (p :: paths) []) as [e | data'] eqn:Hall; simpl.
  - split; [done |]. intros (paths' & ds & [= <-] & _ & Hds & ->).
    assert (Hok : parseAll P H (p :: paths) [] = inr (concat ds))
      by (apply parseAll_succeeds_iff; by exists ds).
    congruence.
  - apply parseAll_succeeds_iff in Hall as (ds & Hds & ->). simpl. split.
    + intros [= <-]. by exists (p :: paths), ds.
    + intros (paths' & ds' & [= <-] & _ & Hds' & ->).
      assert (Hok : parseAll P H (p :: paths) [] = inr (concat ds'))
        by (apply parseAll_succeeds_iff; by exists ds').
      assert (Hok' : parseAll P H (p :: paths) [] = inr (concat ds))
        by (apply parseAll_succeeds_iff; by exists ds).
      rewrite Hok in Hok'. injection Hok' as ->. done.
Qed.

(** X6. [load] on a directory returns [undefined] with the single log line
    "not exists" exactly when neither the root nor any descendant outside
    the ignored directories holds the manifest. *)
Theorem load_reports_not_exists_iff (root : string)
    (es : list (string * node)) :
  load P H root (Dir es) = (inr None, [LogNotExists (filename P)]) ↔
  ∀ q, ¬ found (filename P) (ignoreDirectories P) root es q.
Proof.
  unfold load. destruct (scan_directory root es) as (paths & -> & Hspec).
  destruct paths as [|p paths]; simpl length.
  - simpl. split; [|done]. intros _ q Hq. apply Hspec in Hq. inversion Hq.
  - change (S (length paths) =? 0) with false. cbv iota. split.
    + destruct (parseAll P H (p :: paths) []); intros [= ?].
    + intros Hnone. destruct (Hnone p). apply Hspec. by left.
Qed.

End Load.

Lemma load_returns_names_in_scan_order_example :
  (load PackageJSONParser Sample.host "/ws" Sample.workspace).1
  = inr (Some ["vue-i18n"]).
Proof. reflexivity. Qed.

(** * Further properties of [update] *)

Section UpdateFacts.
Import Global.
Context (E : Env) (C : Config.t).

Lemma update_frame (event : option ConfigurationChangeEvent) (s : State) :
  let s' := state (update E C event s) in
  _currentWorkspaceRootPath s' = _currentWorkspaceRootPath s
  ∧ _currentActiveFilePath s' = _currentActiveFilePath s
  ∧ _currentWorkspaceFolder s' = _currentWorkspaceFolder s
  ∧ _cacheUsageMatchRegex s' = ∅.
Proof.
  cbv zeta.
  destruct (update_cases E C event s)
    as [(_ & ->) | [(_ & e & _ & ->) | (_ & s1 & scanned & Hres & ->)]];
    [done | done |].
  destruct (resolveFrameworks_frame E C _ _ _ Hres)
    as (_ & Hr & Ha & _ & Hf & Hc & _).
  destruct (refreshed_frame E C (reloadRequested E C event) s1)
    as (Hr' & Ha' & _ & Hf' & _ & Hc' & _).
  cbn [state returned]. by rewrite Hr', Ha', Hf', Hc', Hr, Ha, Hf, Hc.
Qed.

Lemma elem_of_setEnabled_effects (x : effect) (value : bool) (s : State) :
  x ∈ (setEnabled E value s).2 ↔
  _enabled s ≠ value
  ∧ (x = LogEnabled value
     ∨ x = SetContext (EXT_NAMESPACE E +:+ "-enabled") value
     ∨ x = FireDidChangeEnabled value).
Proof.
  rewrite setEnabled_effects.
  destruct (Bool.eqb (_enabled s) value) eqn:Heq.
  - apply Bool.eqb_prop in Heq. split; [intros Hin; inversion Hin | intros [? _]; done].
  - apply Bool.eqb_false_iff in Heq. rewrite !elem_of_cons, elem_of_nil.
    split; [intros [? | [? | [? | []]]]; auto | intros [_ [? | [? | ?]]]; auto].
Qed.

Lemma elem_of_initLoader_effects (x : effect) (folderPath : option string)
    (reload : bool) (s : State) :
  x ∈ (initLoader folderPath reload s).2 →
  x = CheckNotification ∨ ∃ l, x = LoaderInit l.
Proof.
  unfold initLoader. destruct folderPath as [folderPath|]; simpl.
  2:{ intros Hin. inversion Hin. }
  destruct (String.eqb folderPath ""); simpl.
  { intros Hin. inversion Hin. }
  destruct (_ && _); simpl; rewrite ?elem_of_cons, elem_of_nil.
  - intros [? | []]. by left.
  - intros [? | [? | []]]; [by left | right; by eexists].
Qed.

Lemma elem_of_announcedEnabled (x : effect) (s : State) :
  x ∈ announcedEnabled E C s →
  (∃ names, x = LogEnabledFrameworks names)
  ∨ (∃ ids, x = LogEnabledParsers ids)
  ∨ x = LogBlank
  ∨ (∃ key value, x = SetContext key value)
  ∨ x = TelemetryTrackEnabled
  ∨ x = TelemetryUpdateUserProperties.
Proof.
  unfold announcedEnabled. rewrite !elem_of_cons, elem_of_nil.
  intros [-> | [-> | [-> | [-> | [-> | [-> | []]]]]]]; eauto 10.
Qed.

Lemma elem_of_announcedDisabled (x : effect) (s : State) :
  x ∈ announcedDisabled E C s ↔
  Config.disabled C = false
  ∧ ((x = LogNotValidProject
      ∧ isValidProject E C s = false ∧ hasLocalesSet C s = true)
     ∨ (x = ConfigLocalesGuideAutoSet
        ∧ isValidProject E C s = true ∧ hasLocalesSet C s = false
        ∧ Config.autoDetection C = true)).
Proof.
  unfold announcedDisabled.
  destruct (Config.disabled C); simpl.
  { split; [intros Hin; inversion Hin | intros [? _]; done]. }
  destruct (isValidProject E C s), (hasLocalesSet C s),
    (Config.autoDetection C); simpl;
    rewrite ?elem_of_cons, ?elem_of_nil; intuition congruence.
Qed.

Lemma elem_of_eventLogs (x : effect) (ev : ConfigurationChangeEvent) :
  x ∈ eventLogs E C ev →
  (∃ key, x = LogConfigReloading key) ∨ (∃ key, x = LogConfigChanged key)
  ∨ x = AnalystRefresh.
Proof.
  unfold eventLogs. rewrite !elem_of_app.
  destruct (affectedKey E ev (Config.reloadConfigs C)),
    (affectedKey E ev (Config.refreshConfigs C)),
    (affectedKey E ev (Config.usageRefreshConfigs C));
    rewrite ?elem_of_cons, ?elem_of_nil; intros Hin;
    repeat match goal with
           | Hor : _ ∨ _ |- _ => destruct Hor
           | Hf : False |- _ => destruct Hf
           end; subst; eauto.
Qed.

(** The event filter only logs, and refreshes the analyst. *)
Lemma elem_of_filterEffects (x : effect)
    (event : option ConfigurationChangeEvent) :
  x ∈ filterEffects E C event →
  (∃ key, x = LogConfigReloading key) ∨ (∃ key, x = LogConfigChanged key)
  ∨ x = AnalystRefresh ∨ x = LogReloadingLoader.
Proof.
  unfold filterEffects. destruct event as [ev|]; [|intros Hin; inversion Hin].
  rewrite elem_of_app. intros [Hin | Hin].
  - apply elem_of_eventLogs in Hin. intuition.
  - destruct (reloadRequested E C (Some ev)); [|inversion Hin].
    apply list_elem_of_singleton in Hin. auto.
Qed.

Lemma filterEffects_not_notifications
    (event : option ConfigurationChangeEvent) :
  List.filter isNotification (filterEffects E C event) = [].
Proof.
  apply filter_nil_iff. intros x Hin.
  apply elem_of_filterEffects in Hin
    as [(? & ->) | [(? & ->) | [-> | ->]]]; done.
Qed.

Lemma elem_of_scanned (x : effect) (s s1 : State) (scanned : list effect) :
  resolveFrameworks E C s = inr (s1, scanned) →
  x ∈ scanned → ∃ folder, x = ScanFolder folder.
Proof.
  intros Hres.
  destruct (resolveFrameworks_frame E C _ _ _ Hres)
    as (_ & _ & _ & _ & _ & _ & _ & _ & visited & ->).
  intros Hin. apply list_elem_of_fmap in Hin as (folder & -> & _). by eexists.
Qed.

(** Membership in the effects of the part of [update] that follows the
    assignment of the frameworks. *)
Lemma elem_of_tailEffects (x : effect) (reload : bool) (s : State) :
  x ∈ tailEffects E C reload s ↔
  x ∈ (setEnabled E (shouldEnabled E C s) s).2
  ∨ (shouldEnabled E C s = true
     ∧ (x ∈ announcedEnabled E C s
        ∨ x ∈ (initLoader (_currentWorkspaceRootPath s) reload
                 (with_enabled true s)).2))
  ∨ (shouldEnabled E C s = false ∧ x ∈ announcedDisabled E C s)
  ∨ x = FireDidChangeLoader (loader (refreshed E C reload s)).
Proof.
  unfold tailEffects.
  rewrite !elem_of_app, list_elem_of_singleton.
  destruct (shouldEnabled E C s); rewrite ?elem_of_app; intuition congruence.
Qed.

Lemma isValidProject_ext (s s' : State) :
  enabledFrameworks s = enabledFrameworks s' →
  isValidProject E C s = isValidProject E C s'.
Proof.
  intros Hf. unfold isValidProject.
  by rewrite (enabledParsers_ext E C s s'), Hf.
Qed.

Lemma hasLocalesSet_ext (s s' : State) :
  enabledFrameworks s = enabledFrameworks s' →
  _currentWorkspaceFolder s = _currentWorkspaceFolder s' →
  hasLocalesSet C s = hasLocalesSet C s'.
Proof.
  intros Hf Hw. unfold hasLocalesSet. by rewrite (localesPaths_ext C s s').
Qed.

(** X10. [update] fires enabled-changed with a value exactly when the
    enabled flag after the call differs from the flag before, and the value
    is the new flag. *)
Theorem update_fires_enabled_changed_iff
    (event : option ConfigurationChangeEvent) (s : State) (value : bool) :
  let r := update E C event s in
  FireDidChangeEnabled value ∈ effects r ↔
  value = enabled (state r) ∧ enabled (state r) ≠ enabled s.
Proof.
  cbv zeta.
  destruct (update_cases E C event s)
    as [(_ & ->) | [(_ & e & _ & ->) | (_ & s1 & scanned & Hres & ->)]];
    cbn [state effects returned rejected].
  1,2: split; [|by intros [_ Hne]; destruct Hne].
  1,2: intros Hin; apply elem_of_filterEffects in Hin
         as [(? & ?) | [(? & ?) | [? | ?]]]; done.
  destruct (resolveFrameworks_frame E C _ _ _ Hres)
    as (_ & _ & _ & Hen & _).
  destruct (refreshed_frame E C (reloadRequested E C event) s1)
    as (_ & _ & _ & _ & _ & _ & He).
  rewrite He. rewrite !elem_of_app, elem_of_tailEffects.
  rewrite elem_of_setEnabled_effects, Hen. simpl. unfold enabled. split.
  - intros [Hin | [Hin | Hin]].
    { apply elem_of_filterEffects in Hin
        as [(? & ?) | [(? & ?) | [? | ?]]]; done. }
    { apply (elem_of_scanned _ _ _ _ Hres) in Hin as (? & ?). done. }
    destruct Hin as [[Hne [? | [? | Heq]]] | [[_ [Hin | Hin]] | [[_ Hin] | ?]]];
      try done.
    + injection Heq as ->. split; [done | by apply not_eq_sym].
    + apply elem_of_announcedEnabled in Hin
        as [(? & ?) | [(? & ?) | [? | [(? & ? & ?) | [? | ?]]]]]; done.
    + apply elem_of_initLoader_effects in Hin as [? | (? & ?)]; done.
    + apply elem_of_announcedDisabled in Hin;
        destruct Hin as [_ [(? & _) | (? & _)]]; done.
  - intros [-> Hne]. right. right. left.
    split; [by apply not_eq_sym | auto].
Qed.

(** X12. [update] starts [ConfigLocalesGuide.autoSet] exactly when the call
    is not cut short, does not throw, the extension is not disabled, the
    project is valid (a framework and a parser are enabled), no locale path
    is set and auto-detection is on. *)
Theorem update_starts_locales_guide_iff
    (event : option ConfigurationChangeEvent) (s : State) :
  let r := update E C event s in
  ConfigLocalesGuideAutoSet ∈ effects r ↔
  ignored E C event = false
  ∧ thrown r = None
  ∧ Config.disabled C = false
  ∧ isValidProject E C (state r) = true
  ∧ hasLocalesSet C (state r) = false
  ∧ Config.autoDetection C = true.
Proof.
  cbv zeta.
  destruct (update_cases E C event s)
    as [(Hi & ->) | [(Hi & e & _ & ->) | (Hi & s1 & scanned & Hres & ->)]];
    cbn [state effects thrown returned rejected].
  1,2: split; [|intros (? & ? & _); congruence].
  1,2: intros Hin; apply elem_of_filterEffects in Hin
         as [(? & ?) | [(? & ?) | [? | ?]]]; done.
  destruct (refreshed_frame E C (reloadRequested E C event) s1)
    as (_ & _ & _ & Hfolder & Hfw & _ & _).
  set (s' := refreshed E C (reloadRequested E C event) s1) in *.
  rewrite (isValidProject_ext s' s1) by done.
  rewrite (hasLocalesSet_ext s' s1) by done.
  rewrite !elem_of_app, elem_of_tailEffects. fold s'.
  rewrite elem_of_setEnabled_effects, elem_of_announcedDisabled. split.
  - intros [Hin | [Hin | Hin]].
    { apply elem_of_filterEffects in Hin
        as [(? & ?) | [(? & ?) | [? | ?]]]; done. }
    { apply (elem_of_scanned _ _ _ _ Hres) in Hin as (? & ?). done. }
    destruct Hin as [[Hne [? | [? | ?]]] | [[_ [Hin | Hin]] | [[_ Hin] | ?]]];
      try done.
    + apply elem_of_announcedEnabled in Hin
        as [(? & ?) | [(? & ?) | [? | [(? & ? & ?) | [? | ?]]]]]; done.
    + apply elem_of_initLoader_effects in Hin as [? | (? & ?)]; done.
    + destruct Hin as (Hd & [(? & _) | (_ & Hv & Hl & Ha)]); done.
  - intros (_ & _ & Hd & Hv & Hl & Ha). right. right. right. right. left.
    split.
    + unfold shouldEnabled. rewrite Hl. apply andb_false_r.
    + split; [done |]. right. done.
Qed.

(** X11. The last effect of an [update] that is not cut short and runs to
    its end is the loader-changed event carrying the loader of the current
    root ([undefined] if none); an [update] that is cut short, or that
    throws, fires no event. *)
Theorem update_ends_with_loader_changed
    (event : option ConfigurationChangeEvent) (s : State) :
  let r := update E C event s in
  (ignored E C event = false → thrown r = None →
   last (effects r) = Some (FireDidChangeLoader (loader (state r))))
  ∧ (ignored E C event = true ∨ thrown r ≠ None →
     List.filter isNotification (effects r) = []).
Proof.
  cbv zeta.
  destruct (update_cases E C event s)
    as [(Hi & ->) | [(Hi & e & _ & ->) | (Hi & s1 & scanned & Hres & ->)]];
    cbn [state effects thrown returned rejected].
  - split; [congruence |]. intros _. apply filterEffects_not_notifications.
  - split; [done |]. intros _. apply filterEffects_not_notifications.
  - split; [|intros [? | ?]; congruence].
    intros _ _. unfold tailEffects. rewrite !app_assoc. apply last_snoc.
Qed.


(** X9. With [Config.enabledFrameworks] set, [update] never loads package
    dependencies and leaves [_nearestEnabledFrameworkPath] as it was; the
    frameworks are those of [getEnabledFrameworksByIds] for the workspace
    root; and the call does not throw. *)
Theorem update_with_pinned_frameworks
    (event : option ConfigurationChangeEvent) (s : State) (ids : list string) :
  Config.enabledFrameworks C = Some ids →
  let r := update E C event s in
  (∀ folder, ScanFolder folder ∉ effects r)
  ∧ _nearestEnabledFrameworkPath (state r) = _nearestEnabledFrameworkPath s
  ∧ (ignored E C event = false →
     enabledFrameworks (state r)
     = getEnabledFrameworksByIds E ids (_currentWorkspaceRootPath s))
  ∧ thrown r = None.
Proof.
  intros Hpin. cbv zeta.
  assert (Hres : resolveFrameworks E C (resetCache s)
                 = inr (with_frameworks
                          (getEnabledFrameworksByIds E ids
                             (_currentWorkspaceRootPath s))
                          (resetCache s), [])).
  { unfold resolveFrameworks. by rewrite Hpin. }
  destruct (update_cases E C event s)
    as [(Hi & ->) | [(Hi & e' & Hres' & ->) | (Hi & s1 & scanned & Hres' & ->)]];
    cbn [state effects thrown returned rejected].
  - split_and!; [|done|congruence|done].
    intros folder Hin. apply elem_of_filterEffects in Hin
      as [(? & ?) | [(? & ?) | [? | ?]]]; done.
  - congruence.
  - rewrite Hres in Hres'. injection Hres' as <- <-.
    match goal with
    | |- context [refreshed E C ?r ?t] =>
        destruct (refreshed_frame E C r t) as (_ & _ & Hn & _ & Hf & _)
    end.
    split_and!; [|by rewrite Hn|by rewrite Hf|done].
    intros folder Hin. rewrite app_nil_l in Hin.
    apply elem_of_app in Hin as [Hin | Hin].
    { apply elem_of_filterEffects in Hin
        as [(? & ?) | [(? & ?) | [? | ?]]]; done. }
    apply elem_of_tailEffects in Hin.
    destruct Hin as [Hin | [[_ [Hin | Hin]] | [[_ Hin] | ?]]].
    + apply elem_of_setEnabled_effects in Hin.
      destruct Hin as [_ [? | [? | ?]]]; discriminate.
    + apply elem_of_announcedEnabled in Hin
        as [(? & ?) | [(? & ?) | [? | [(? & ? & ?) | [? | ?]]]]]; done.
    + apply elem_of_initLoader_effects in Hin as [? | (? & ?)]; done.
    + apply elem_of_announcedDisabled in Hin;
        destruct Hin as [_ [(? & _) | (? & _)]]; done.
    + done.
Qed.

(** X8. Without a framework list set by hand, an [update] that is not cut
    short hands the stored root and active path to
    [findNearestEnabledFrameworks].  If that returns, [update] stores the
    frameworks and the folder returned, loads the package dependencies of
    exactly the folders the walk examined, and runs to its end.  If it
    throws, so does [update], with the same exception, and nothing has been
    stored or loaded. *)
Theorem update_stores_nearest_frameworks
    (event : option ConfigurationChangeEvent) (s : State) :
  Config.enabledFrameworks C = None →
  ignored E C event = false →
  let r := update E C event s in
  match findNearestEnabledFrameworks E (_currentWorkspaceRootPath s)
          (_currentActiveFilePath s) with
  | inr found =>
      (enabledFrameworks (state r), _nearestEnabledFrameworkPath (state r))
      = found.1
      ∧ (∀ folder, ScanFolder folder ∈ effects r ↔ folder ∈ found.2)
      ∧ thrown r = None
  | inl e =>
      thrown r = Some e
      ∧ state r = resetCache s
      ∧ ∀ folder, ScanFolder folder ∉ effects r
  end.
Proof.
  intros Hnone Hign. cbv zeta.
  assert (Hres : resolveFrameworks E C (resetCache s)
                 = match findNearestEnabledFrameworks E
                           (_currentWorkspaceRootPath s)
                           (_currentActiveFilePath s) with
                   | inl e => inl e
                   | inr found =>
                       inr (with_nearest found.1.2
                              (with_frameworks found.1.1 (resetCache s)),
                            map ScanFolder found.2)
                   end).
  { unfold resolveFrameworks. rewrite Hnone. simpl.
    by destruct (findNearestEnabledFrameworks _ _ _)
      as [e | [[fws nearest] visited]]. }
  destruct (findNearestEnabledFrameworks E (_currentWorkspaceRootPath s)
              (_currentActiveFilePath s))
    as [e | [[fws nearest] visited]];
    destruct (update_cases E C event s)
      as [(Hi & ->) | [(Hi & e' & Hres' & ->) | (Hi & s1 & scanned & Hres' & ->)]];
    cbn [state effects thrown returned rejected fst snd] in *; try congruence.
  - rewrite Hres in Hres'. injection Hres' as <-. split_and!; try done.
    intros folder Hin. apply elem_of_filterEffects in Hin
      as [(? & ?) | [(? & ?) | [? | ?]]]; done.
  - rewrite Hres in Hres'. injection Hres' as <- <-.
    match goal with
    | |- context [refreshed E C ?r ?t] =>
        destruct (refreshed_frame E C r t) as (_ & _ & Hn & _ & Hf & _)
    end.
    split_and!; [by rewrite Hn, Hf | | done].
    intros folder. rewrite !elem_of_app. split.
    + intros [Hin | [Hin | Hin]].
      * apply elem_of_filterEffects in Hin
          as [(? & ?) | [(? & ?) | [? | ?]]]; done.
      * apply list_elem_of_fmap in Hin as (f & [= ->] & ?). done.
      * apply elem_of_tailEffects in Hin.
        destruct Hin as [Hin | [[_ [Hin | Hin]] | [[_ Hin] | ?]]].
        -- apply elem_of_setEnabled_effects in Hin;
             destruct Hin as [_ [? | [? | ?]]]; done.
        -- apply elem_of_announcedEnabled in Hin
             as [(? & ?) | [(? & ?) | [? | [(? & ? & ?) | [? | ?]]]]]; done.
        -- apply elem_of_initLoader_effects in Hin as [? | (? & ?)]; done.
        -- apply elem_of_announcedDisabled in Hin;
             destruct Hin as [_ [(? & _) | (? & _)]]; done.
        -- done.
    + intros Hin. right. left. apply list_elem_of_fmap. by exists folder.
Qed.

(** X13. When a reload-triggering key changed and [update] runs to its end
    with the controller enabled on a non-empty root, it files a newly
    created loader under that root; the loader filed there before is not
    disposed, and the loaders of the other roots stay. *)
Theorem update_reload_replaces_loader
    (event : option ConfigurationChangeEvent) (s : State) (root : string) :
  reloadRequested E C event = true →
  _currentWorkspaceRootPath s = Some root →
  root ≠ "" →
  let r := update E C event s in
  thrown r = None →
  enabled (state r) = true →
  loader (state r) = Some {| loader_id := created s; rootpath := root |}
  ∧ created (state r) = S (created s)
  ∧ disposed (state r) = disposed s
  ∧ (∀ root', root' ≠ root →
       _loaders (state r) !! root' = _loaders s !! root')
  ∧ LoaderInit {| loader_id := created s; rootpath := root |} ∈ effects r.
Proof.
  intros Hreload Hroot Hne. cbv zeta.
  assert (Hign : ignored E C event = false).
  { destruct event as [ev|]; [|done]. unfold ignored, reloadRequested in *.
    by rewrite Hreload. }
  destruct (update_cases E C event s)
    as [(Hi & ->) | [(Hi & e' & Hres & ->) | (Hi & s1 & scanned & Hres & ->)]];
    cbn [state effects thrown returned rejected]; [congruence | done |].
  intros _ Hon. rewrite Hreload in *.
  destruct (refreshed_frame E C true s1) as (_ & _ & _ & _ & _ & _ & He).
  rewrite Hon in He. symmetry in He.
  destruct (resolveFrameworks_frame E C _ _ _ Hres)
    as (Hl & Hr & _ & _ & _ & _ & Hc & Hd & _).
  simpl in Hl, Hr, Hc, Hd. rewrite Hroot in Hr.
  assert (Hinit : initLoader (Some root) true (with_enabled true s1)
                  = (with_loaders
                       (<[root := {| loader_id := created s; rootpath := root |}]>
                          (_loaders s))
                       (with_heap (S (created s)) (disposed s)
                          (with_enabled true s1)),
                     [CheckNotification;
                      LoaderInit {| loader_id := created s; rootpath := root |}])).
  { unfold initLoader. apply String.eqb_neq in Hne. rewrite Hne, andb_false_r.
    simpl. by rewrite Hl, Hc, Hd. }
  rewrite !elem_of_app, elem_of_tailEffects.
  unfold refreshed, loader. rewrite He, Hr, Hinit. simpl.
  rewrite Hr. simpl. rewrite lookup_insert_eq. split_and!; try done.
  - intros root' Hne'. by rewrite lookup_insert_ne.
  - right. right. right. left. split; [done |].
    right. apply elem_of_cons. right. by apply elem_of_cons; left.
Qed.

(** X14. Without a reload-triggering key, an [update] that ends up enabled
    on a root that has a loader keeps the registry as it is and creates no
    loader. *)
Theorem update_reuses_loader
    (event : option ConfigurationChangeEvent) (s : State) :
  ignored E C event = false →
  reloadRequested E C event = false →
  is_Some (loader s) →
  let r := update E C event s in
  enabled (state r) = true →
  _loaders (state r) = _loaders s
  ∧ created (state r) = created s
  ∧ disposed (state r) = disposed s
  ∧ ∀ l, LoaderInit l ∉ effects r.
Proof.
  intros Hign Hreload Hsome. cbv zeta.
  destruct (update_cases E C event s)
    as [(Hi & ->) | [(Hi & e' & Hres & ->) | (Hi & s1 & scanned & Hres & ->)]];
    cbn [state effects thrown returned rejected]; [congruence | |].
  { intros _. split_and!; try done. intros l Hin.
    apply elem_of_filterEffects in Hin
      as [(? & ?) | [(? & ?) | [? | ?]]]; done. }
  intros Hon. rewrite Hreload in *.
  destruct (refreshed_frame E C false s1) as (_ & _ & _ & _ & _ & _ & He).
  rewrite Hon in He. symmetry in He.
  destruct (resolveFrameworks_frame E C _ _ _ Hres)
    as (Hl & Hr & _ & _ & _ & _ & Hc & Hd & _).
  simpl in Hl, Hr, Hc, Hd.
  assert (Hinit : (initLoader (_currentWorkspaceRootPath s1) false
                     (with_enabled true s1)).1 = with_enabled true s1
                  ∧ ∀ l, LoaderInit l
                         ∉ (initLoader (_currentWorkspaceRootPath s1) false
                              (with_enabled true s1)).2).
  { unfold initLoader. rewrite Hr. unfold loader in Hsome.
    destruct (_currentWorkspaceRootPath s) as [root|]; simpl.
    2:{ split; [done |]. intros l Hin. inversion Hin. }
    simpl in Hsome. destruct (String.eqb root ""); simpl.
    { split; [done |]. intros l Hin. inversion Hin. }
    rewrite Hl, bool_decide_eq_true_2 by done. simpl.
    split; [done |]. intros l Hin.
    apply elem_of_cons in Hin as [Hin | Hin]; [done | inversion Hin]. }
  destruct Hinit as [Hst Hno].
  unfold refreshed. rewrite He, Hst. simpl. split_and!; try done.
  intros l. rewrite !elem_of_app, elem_of_tailEffects.
  intros [Hin | [Hin | Hin]].
  { apply elem_of_filterEffects in Hin
      as [(? & ?) | [(? & ?) | [? | ?]]]; done. }
  { apply (elem_of_scanned _ _ _ _ Hres) in Hin as (? & ?). done. }
  destruct Hin as [Hin | [[_ [Hin | Hin]] | [[? _] | ?]]]; try done.
  - apply elem_of_setEnabled_effects in Hin.
    destruct Hin as [_ [? | [? | ?]]]; done.
  - apply elem_of_announcedEnabled in Hin
      as [(? & ?) | [(? & ?) | [? | [(? & ? & ?) | [? | ?]]]]]; done.
  - by apply Hno in Hin.
  - congruence.
Qed.

Lemma registryOk_unloadAll (s : State) :
  registryOk s → registryOk (unloadAll s).
Proof.
  intros (Hreg & _ & Hdisp). unfold registryOk, unloadAll. simpl. split_and!.
  - intros root l Hl. by rewrite lookup_empty in Hl.
  - intros root1 root2 l1 l2 Hl. by rewrite lookup_empty in Hl.
  - intros n Hn. apply elem_of_disposals in Hn as [Hn | (l & Hl & <-)].
    + by apply Hdisp.
    + unfold loaderValues in Hl.
      apply list_elem_of_fmap in Hl as ([root l'] & -> & Hl).
      apply elem_of_map_to_list in Hl. by destruct (Hreg root l' Hl) as (_ & ? & _).
Qed.

Lemma registryOk_initLoader (folderPath : option string) (reload : bool)
    (s : State) :
  registryOk s → registryOk (initLoader folderPath reload s).1.
Proof.
  intros (Hreg & Hinj & Hdisp). unfold initLoader.
  destruct folderPath as [folderPath|]; [|done].
  destruct (String.eqb folderPath ""); [done |].
  destruct (_ && _); [done |]. simpl. unfold registryOk. simpl. split_and!.
  - intros root l. rewrite lookup_insert. case_decide as Hk.
    + intros [= <-]. simpl. split_and!; [done | lia |].
      intros Hin. apply Hdisp in Hin. lia.
    + intros Hl. destruct (Hreg root l Hl) as (? & ? & ?).
      split_and!; [done | lia | done].
  - intros root1 root2 l1 l2. rewrite !lookup_insert.
    repeat case_decide; subst; try done.
    + intros [= <-] Hl2 Heq. simpl in Heq.
      destruct (Hreg root2 l2 Hl2) as (_ & ? & _). lia.
    + intros Hl1 [= <-] Heq. simpl in Heq.
      destruct (Hreg root1 l1 Hl1) as (_ & ? & _). lia.
    + apply Hinj.
  - intros n Hn. apply Hdisp in Hn. lia.
Qed.

Lemma registryOk_frame (s s' : State) :
  _loaders s' = _loaders s → created s' = created s →
  disposed s' = disposed s →
  registryOk s → registryOk s'.
Proof. unfold registryOk. intros -> -> ->. done. Qed.

(** X15. [update] keeps the registry well formed: every loader is filed
    under its own root, no loader is filed under two roots, and no loader
    of the registry has been disposed. *)
Theorem update_keeps_registry_ok
    (event : option ConfigurationChangeEvent) (s : State) :
  registryOk s → registryOk (state (update E C event s)).
Proof.
  intros Hok.
  destruct (update_cases E C event s)
    as [(Hi & ->) | [(Hi & e' & Hres & ->) | (Hi & s1 & scanned & Hres & ->)]];
    cbn [state returned rejected].
  1,2: by apply (registryOk_frame s).
  destruct (resolveFrameworks_frame E C _ _ _ Hres)
    as (Hl & _ & _ & _ & _ & _ & Hc & Hd & _).
  assert (Hok1 : registryOk s1) by (by apply (registryOk_frame s)).
  unfold refreshed. destruct (shouldEnabled E C s1).
  - apply registryOk_initLoader. by apply (registryOk_frame s1).
  - apply registryOk_unloadAll. by apply (registryOk_frame s1).
Qed.

(** X16. An event that touches no reload or refresh key leaves the state
    as it was but for the emptied cache; the analyst is refreshed exactly
    when the event affects a key of [usageRefreshConfigs], and nothing but
    that refresh and its log line happens. *)
Theorem update_usage_refresh_only
    (ev : ConfigurationChangeEvent) (s : State) :
  ignored E C (Some ev) = true →
  let r := update E C (Some ev) s in
  state r = resetCache s
  ∧ (AnalystRefresh ∈ effects r ↔
     ∃ config, config ∈ Config.usageRefreshConfigs C
               ∧ affectsConfiguration ev (EXT_NAMESPACE E +:+ "." +:+ config)
                 = true)
  ∧ (∀ x, x ∈ effects r → x = AnalystRefresh ∨ ∃ key, x = LogConfigChanged key)
  ∧ thrown r = None.
Proof.
  intros Hign. cbv zeta.
  assert (Hnone : affectedKey E ev (Config.reloadConfigs C) = None
                  ∧ affectedKey E ev (Config.refreshConfigs C) = None).
  { unfold ignored in Hign. apply negb_true_iff, orb_false_iff in Hign as [H1 H2].
    apply bool_decide_eq_false in H1, H2.
    split.
    - destruct (affectedKey E ev (Config.reloadConfigs C)); [|done].
      destruct H1. by eexists.
    - destruct (affectedKey E ev (Config.refreshConfigs C)); [|done].
      destruct H2. by eexists. }
  destruct Hnone as [Hn1 Hn2].
  rewrite update_unfold, Hign. cbn [state effects thrown returned].
  unfold filterEffects, reloadRequested, eventLogs. rewrite Hn1, Hn2. simpl.
  rewrite app_nil_r. split_and!; [done | | | done].
  - unfold affectedKey.
    destruct (List.find _ _) as [key|] eqn:Hfind.
    + apply List.find_some in Hfind as [Hin Haff].
      apply list_elem_of_In, list_elem_of_fmap in Hin as (config & -> & Hin).
      split; [intros _; by exists config | intros _; by left].
    + split; [intros Hin; inversion Hin |].
      intros (config & Hin & Haff).
      eapply List.find_none in Hfind; [by rewrite Haff in Hfind |].
      apply list_elem_of_In, list_elem_of_fmap. by exists config.
  - intros x. destruct (affectedKey E ev (Config.usageRefreshConfigs C)).
    + rewrite !elem_of_cons, elem_of_nil.
      intros [-> | [-> | []]]; [by left | right; by eexists].
    + intros Hin. inversion Hin.
Qed.

End UpdateFacts.

(** * Further properties of the derived settings *)

Section DerivedSettings.
Import Global.
Context (E : Env) (C : Config.t).

(** X17. Locale paths configured for the current workspace folder (or
    globally when no folder is known) are returned as they are, an empty
    array included.  Only without them are the preferred paths of the
    enabled frameworks used, concatenated in order; the getter is then
    [undefined] exactly when no framework prefers any path, and never an
    empty array. *)
Theorem localesPaths_precedence (s : State) :
  (∀ paths, scopedLocalesPaths C s = Some paths →
            localesPaths C s = Some paths)
  ∧ (scopedLocalesPaths C s = None →
     (localesPaths C s = None ↔
      ∀ f, f ∈ enabledFrameworks s → default [] (perferredLocalePaths f) = [])
     ∧ ∀ paths, localesPaths C s = Some paths →
         paths ≠ []
         ∧ paths = flat_map (fun f => default [] (perferredLocalePaths f))
                     (enabledFrameworks s)).
Proof.
  unfold localesPaths, scopedLocalesPaths.
  destruct (match _currentWorkspaceFolder s with
            | Some folder => Config.getLocalesPathsInScope C folder
            | None => Config._localesPaths C
            end) as [config|].
  - split; [by intros paths [= ->] | done].
  - split; [done |]. intros _. split.
    + destruct (flat_map _ _) as [|p ps] eqn:Hflat; simpl.
      * split; [intros _ | done]. intros f Hf.
        apply list_elem_of_In in Hf.
        destruct (default [] (perferredLocalePaths f)) as [|q qs] eqn:Hd; [done |].
        assert (Hin : In q (flat_map
                  (fun f => default [] (perferredLocalePaths f))
                  (enabledFrameworks s))).
        { apply in_flat_map. exists f. split; [done |]. rewrite Hd. by left. }
        rewrite Hflat in Hin. done.
      * split; [done |]. intros Hall.
        assert (Hin : In p (flat_map
                  (fun f => default [] (perferredLocalePaths f))
                  (enabledFrameworks s))) by (rewrite Hflat; by left).
        apply in_flat_map in Hin as (f & Hf & Hp).
        rewrite (Hall f) in Hp by (by apply list_elem_of_In). done.
    + intros paths. destruct (flat_map _ _) as [|p ps]; simpl; [done |].
      by intros [= <-].
Qed.

Lemma filter_sublist {A} (f : A → bool) (l : list A) :
  sublist (List.filter f l) l.
Proof.
  induction l as [|a l IH]; simpl; [constructor |].
  destruct (f a); by constructor.
Qed.

(** X18. The enabled parsers are the available parsers whose id is in the
    effective id list, in the order of [AvailableParsers] and without
    repetition of a parser; a non-empty [Config.enabledParsers] is that
    list whatever the frameworks ask for. *)
Theorem enabledParsers_from_registry (s : State) :
  sublist (enabledParsers E C s) (AvailableParsers E)
  ∧ (∀ p, p ∈ enabledParsers E C s ↔
          p ∈ AvailableParsers E ∧ parser_id p ∈ enabledParserIds E C s)
  ∧ (∀ ids, Config.enabledParsers C = Some ids → ids ≠ [] →
            enabledParserIds E C s = ids).
Proof.
  split_and!.
  - apply filter_sublist.
  - intros p. unfold enabledParsers.
    rewrite (list_elem_of_In (List.filter _ _) p), List.filter_In.
    by rewrite <- list_elem_of_In, includes_spec.
  - intros ids Hcfg Hne. unfold enabledParserIds. rewrite Hcfg.
    destruct ids as [|i ids]; done.
Qed.

(** X19. Without an override, the first usage-match query after any
    [update], for arguments whose cache key is not a name that the cache
    object inherits, returns the normalised fragments of the frameworks
    enabled now followed by the append-list, and the cache then holds that
    entry alone. *)
Theorem getUsageMatchRegex_fresh_after_update
    (event : option ConfigurationChangeEvent) (s : State)
    (languageId filepath : option string) :
  Config._regexUsageMatch C = None →
  usageKey languageId filepath ∉ inheritedNames →
  let s' := state (update E C event s) in
  let expected :=
    normalizeUsageMatchRegex E
      (flat_map (fun f => getUsageMatchRegex_of f languageId filepath)
         (enabledFrameworks s')
       ++ Config._regexUsageMatchAppend C) in
  let r := getUsageMatchRegex E C languageId filepath s' in
  r.1 = expected
  ∧ _cacheUsageMatchRegex r.2 = {[ usageKey languageId filepath := expected ]}.
Proof.
  intros Hnone _. cbv zeta.
  destruct (update_frame E C event s) as (_ & _ & _ & Hcache).
  unfold getUsageMatchRegex. rewrite Hnone, Hcache, lookup_empty. simpl.
  split; [done |]. by rewrite insert_empty.
Qed.

(** X20. Without an override the cache is addressed by the text
    [languageId_filepath] alone: a query whose arguments render to the key
    of an earlier query gets the earlier result, with other arguments and
    even with other enabled frameworks, until the cache is reset. *)
Theorem getUsageMatchRegex_cached_by_key (s : State)
    (l1 f1 l2 f2 : option string) :
  Config._regexUsageMatch C = None →
  usageKey l1 f1 = usageKey l2 f2 →
  let r1 := getUsageMatchRegex E C l1 f1 s in
  (∀ fws, getUsageMatchRegex E C l2 f2 (with_frameworks fws r1.2)
          = (r1.1, with_frameworks fws r1.2))
  ∧ getUsageMatchRegex E C l2 f2 r1.2 = r1.
Proof.
  intros Hnone Hkey. cbv zeta. unfold getUsageMatchRegex, usageKey in *.
  rewrite Hnone. rewrite <- Hkey.
  destruct (_cacheUsageMatchRegex s !! (tpl l1 +:+ "_" +:+ tpl f1))
    as [cached|] eqn:Hl; simpl.
  - split; [intros fws |]; rewrite Hl; [done | by destruct s].
  - split; [intros fws |]; rewrite lookup_insert_eq; done.
Qed.

End DerivedSettings.

(** * Further properties of the resolver and of the preference getters *)

Section Resolver.
Import Global.
Context (E : Env).



End Resolver.

Section Preferences.
Import Global.
Context (M : FrameworkMembers).

Lemma truthy_spec (x : option string) :
  truthy x = true ↔ ∃ v, x = Some v ∧ v ≠ "".
Proof.
  destruct x as [v|]; simpl.
  - rewrite negb_true_iff, String.eqb_neq. split.
    + intros Hv. by exists v.
    + by intros (v' & [= <-] & Hv).
  - split; [done | by intros (? & ? & _)].
Qed.

(** X21. [getNamespaceDelimiter] never returns the empty string: it is
    the delimiter of the first enabled framework that has a non-empty one,
    and "." when there is none. *)
Theorem getNamespaceDelimiter_first_truthy (s : State) :
  let d := getNamespaceDelimiter M s in
  d ≠ ""
  ∧ (∀ pre f post v,
       enabledFrameworks s = pre ++ f :: post →
       (∀ g, g ∈ pre → truthy (namespaceDelimiter M g) = false) →
       namespaceDelimiter M f = Some v → v ≠ "" →
       d = v)
  ∧ ((∀ g, g ∈ enabledFrameworks s → truthy (namespaceDelimiter M g) = false) →
     d = ".").
Proof.
  cbv zeta. unfold getNamespaceDelimiter. split_and!.
  - induction (enabledFrameworks s) as [|f fs IH]; simpl; [done |].
    destruct (truthy (namespaceDelimiter M f)) eqn:Ht; [|done].
    apply truthy_spec in Ht as (v & -> & Hv). done.
  - intros pre f post v -> Hpre Hf Hv.
    induction pre as [|g pre IH]; simpl.
    + rewrite Hf. simpl. apply String.eqb_neq in Hv. by rewrite Hv.
    + rewrite (Hpre g) by (by left). apply IH. intros g' Hg'. apply Hpre. by right.
  - induction (enabledFrameworks s) as [|f fs IH]; simpl; [done |].
    intros Hall. rewrite (Hall f) by (by left). apply IH.
    intros g Hg. apply Hall. by right.
Qed.

Lemma fold_dirStructure_none (fs : list Framework) (config : option string) :
  (∀ g, g ∈ fs → truthy (perferredDirStructure M g) = false) →
  fold_left
    (fun config f =>
       if truthy (perferredDirStructure M f)
       then perferredDirStructure M f else config) fs config = config.
Proof.
  revert config. induction fs as [|f fs IH]; intros config Hall; simpl; [done |].
  rewrite (Hall f) by (by left). apply IH. intros g Hg. apply Hall. by right.
Qed.

(** X22. An explicit directory structure other than "auto" is returned as
    it is.  Otherwise the preference of the last enabled framework that has
    one is returned (the loop does not stop at the first), and the
    configured value itself when no framework has one. *)
Theorem dirStructure_last_preference (X : Settings.t) (s : State) :
  let config := Settings._dirStructure X in
  (truthy config = true → config ≠ Some "auto" → dirStructure M X s = config)
  ∧ (truthy config = false ∨ config = Some "auto" →
     (∀ pre f post,
        enabledFrameworks s = pre ++ f :: post →
        truthy (perferredDirStructure M f) = true →
        (∀ g, g ∈ post → truthy (perferredDirStructure M g) = false) →
        dirStructure M X s = perferredDirStructure M f)
     ∧ ((∀ g, g ∈ enabledFrameworks s →
              truthy (perferredDirStructure M g) = false) →
        dirStructure M X s = config)).
Proof.
  cbv zeta. unfold dirStructure. split.
  - intros Ht Hauto. rewrite Ht. simpl. by rewrite bool_decide_eq_false_2.
  - intros Hunset.
    assert (Hcond : negb (truthy (Settings._dirStructure X))
                    || bool_decide (Settings._dirStructure X = Some "auto") = true).
    { destruct Hunset as [-> | ->]; [done |]. simpl. done. }
    rewrite Hcond. split.
    + intros pre f post -> Hf Hpost. rewrite fold_left_app. simpl.
      rewrite Hf. by apply fold_dirStructure_none.
    + apply fold_dirStructure_none.
Qed.

Lemma firstKeystyle_spec (fs : list Framework) (style : string) :
  firstKeystyle M fs = Some style → style ≠ "auto" ∧ style ≠ "".
Proof.
  induction fs as [|f fs IH]; simpl; [done |].
  destruct (truthy (perferredKeystyle M f)) eqn:Ht; simpl; [|done].
  case_bool_decide as Hauto; simpl; [done |].
  apply truthy_spec in Ht as (v & Hv & Hne). rewrite Hv in *.
  intros [= <-]. split; [|done]. intros ->. done.
Qed.

Lemma firstKeystyle_skip (f : Framework) (fs : list Framework) :
  noKeystyle M f → firstKeystyle M (f :: fs) = firstKeystyle M fs.
Proof.
  intros [Hf | Hf]; simpl; rewrite Hf; [done |].
  by rewrite bool_decide_eq_true_2, andb_false_r.
Qed.

Lemma firstKeystyle_hit (pre post : list Framework) (f : Framework)
    (style : string) :
  (∀ g, g ∈ pre → noKeystyle M g) →
  perferredKeystyle M f = Some style → style ≠ "" → style ≠ "auto" →
  firstKeystyle M (pre ++ f :: post) = Some style.
Proof.
  intros Hpre Hf Hne Hauto. induction pre as [|g pre IH].
  - simpl. rewrite Hf. simpl. apply String.eqb_neq in Hne. rewrite Hne. simpl.
    rewrite bool_decide_eq_false_2; [done |]. by intros [= ->].
  - rewrite <- app_comm_cons, firstKeystyle_skip by (apply Hpre; by left).
    apply IH. intros g' Hg'. apply Hpre. by right.
Qed.

Lemma firstKeystyle_miss (fs : list Framework) :
  (∀ g, g ∈ fs → noKeystyle M g) → firstKeystyle M fs = None.
Proof.
  intros Hall. induction fs as [|g fs IH]; [done |].
  rewrite firstKeystyle_skip by (apply Hall; by left).
  apply IH. intros g' Hg'. apply Hall. by right.
Qed.

(** X23. [requestKeyStyle] never answers "auto", and asking again gives
    the same answer whatever the prompt would return.  A configured style
    other than "auto" wins.  Otherwise the answer is the preference of the
    first enabled framework, in the order of the list, that has one other
    than "auto", frameworks after it notwithstanding; the settings are then
    left as they are.  Only when no enabled framework has such a preference
    is the prompt consulted: the answer is the item picked, "nested" if the
    prompt is dismissed, and it is written to [Config._keyStyle]. *)
Theorem requestKeyStyle_settles (X : Settings.t) (picked : option KeyStyleItem)
    (s : State) :
  let r := requestKeyStyle M X picked s in
  r.1 ≠ "auto"
  ∧ (∀ picked', requestKeyStyle M r.2 picked' s = r)
  ∧ (Settings._keyStyle X ≠ "auto" → r = (Settings._keyStyle X, X))
  ∧ (Settings._keyStyle X = "auto" →
     ∀ pre f post style,
       enabledFrameworks s = pre ++ f :: post →
       (∀ g, g ∈ pre →
          truthy (perferredKeystyle M g) = false
          ∨ perferredKeystyle M g = Some "auto") →
       perferredKeystyle M f = Some style → style ≠ "" → style ≠ "auto" →
       r = (style, X))
  ∧ (Settings._keyStyle X = "auto" →
     (∀ g, g ∈ enabledFrameworks s →
        truthy (perferredKeystyle M g) = false
        ∨ perferredKeystyle M g = Some "auto") →
     r.1 = default "nested" (item_value <$> picked)
     ∧ Settings._keyStyle r.2 = r.1
     ∧ Settings._dirStructure r.2 = Settings._dirStructure X).
Proof.
  cbv zeta.
  destruct (String.eqb (Settings._keyStyle X) "auto") eqn:Hcfg.
  - destruct (firstKeystyle M (enabledFrameworks s)) as [style|] eqn:Hfirst.
    + assert (Hr : requestKeyStyle M X picked s = (style, X)).
      { unfold requestKeyStyle. by rewrite Hcfg, Hfirst. }
      rewrite Hr. simpl. apply firstKeystyle_spec in Hfirst as Hstyle.
      split_and!.
      * by destruct Hstyle.
      * intros picked'. unfold requestKeyStyle. by rewrite Hcfg, Hfirst.
      * intros Hne. apply String.eqb_neq in Hne. congruence.
      * intros _ pre f post style' Hsplit Hpre Hf Hne Hauto.
        rewrite Hsplit, (firstKeystyle_hit pre post f style') in Hfirst by done.
        congruence.
      * intros _ Hall. rewrite firstKeystyle_miss in Hfirst by done. done.
    + assert (Hr : requestKeyStyle M X picked s
                   = (default "nested" (item_value <$> picked),
                      {| Settings._keyStyle :=
                           default "nested" (item_value <$> picked);
                         Settings._dirStructure := Settings._dirStructure X |})).
      { unfold requestKeyStyle. rewrite Hcfg, Hfirst. by destruct picked. }
      rewrite Hr. simpl. split_and!.
      * by destruct picked as [[]|].
      * intros picked'. unfold requestKeyStyle. simpl.
        by destruct picked as [[]|].
      * intros Hne. apply String.eqb_neq in Hne. congruence.
      * intros _ pre f post style' Hsplit Hpre Hf Hne Hauto.
        rewrite Hsplit, (firstKeystyle_hit pre post f style') in Hfirst by done.
        done.
      * done.
  - assert (Hr : requestKeyStyle M X picked s = (Settings._keyStyle X, X)).
    { unfold requestKeyStyle. by rewrite Hcfg. }
    rewrite Hr. simpl. apply String.eqb_neq in Hcfg as Hne. split_and!; try done.
    intros picked'. unfold requestKeyStyle. by rewrite Hcfg.
Qed.

End Preferences.

(** * [updateRootPaths] *)

Section RootPaths.
Import Global.
Context (E : Env) (C : Config.t).

Lemma with_folder_same (s : State) (f : option WorkspaceFolder) :
  _currentWorkspaceFolder s = f → with_folder f s = s.
Proof. intros <-. by destruct s. Qed.

Lemma changed_spec (found : string) (stored : option string) :
  (if negb (String.eqb found "") && negb (bool_decide (stored = Some found))
   then Some found else stored)
  = (if negb (String.eqb found "") then Some found else stored).
Proof.
  destruct (String.eqb found "") eqn:H0; simpl; [done |].
  by case_bool_decide.
Qed.

Lemma applyRootPaths_frame (root active : string) (s : State) :
  let s' := state (applyRootPaths E C root active s) in
  _currentWorkspaceRootPath s'
  = (if negb (String.eqb root "") then Some root
     else _currentWorkspaceRootPath s)
  ∧ _currentActiveFilePath s'
    = (if negb (String.eqb active "") then Some active
       else _currentActiveFilePath s)
  ∧ _currentWorkspaceFolder s' = _currentWorkspaceFolder s.
Proof.
  cbv zeta. rewrite <- (changed_spec root), <- (changed_spec active).
  unfold applyRootPaths.
  set (rc := negb (String.eqb root "")
             && negb (bool_decide (_currentWorkspaceRootPath s = Some root))).
  set (ac := negb (String.eqb active "")
             && negb (bool_decide (_currentActiveFilePath s = Some active))).
  set (t := if ac then with_active active
                        (if rc then with_root root s else s)
            else if rc then with_root root s else s).
  assert (Ht : _currentWorkspaceRootPath t
               = (if rc then Some root else _currentWorkspaceRootPath s)
               ∧ _currentActiveFilePath t
                 = (if ac then Some active else _currentActiveFilePath s)
               ∧ _currentWorkspaceFolder t = _currentWorkspaceFolder s).
  { subst t. by destruct rc, ac. }
  destruct Ht as (Hr & Ha & Hf).
  destruct (update_frame E C None t) as (Hr' & Ha' & Hf' & _).
  destruct (rc || ac) eqn:Hany; cbn [state returned].
  - by rewrite Hr', Ha', Hf', Hr, Ha, Hf.
  - by rewrite Hr, Ha, Hf.
Qed.

Lemma applyRootPaths_again (root active : string) (s : State) :
  let s' := state (applyRootPaths E C root active s) in
  applyRootPaths E C root active s' = returned s' [].
Proof.
  cbv zeta. destruct (applyRootPaths_frame root active s) as (Hr & Ha & _).
  set (s' := state (applyRootPaths E C root active s)) in *.
  unfold applyRootPaths. rewrite Hr, Ha.
  destruct (String.eqb root "") eqn:Hr0; simpl;
    destruct (String.eqb active "") eqn:Ha0; simpl;
    rewrite ?bool_decide_eq_true_2 by done; done.
Qed.

(** X24. [updateRootPaths] called again for the same editor and workspace
    changes nothing and runs no [update]; without an active editor or
    without workspace folders it does nothing at all. *)
Theorem updateRootPaths_again_is_silent (W : Workbench) (s : State) :
  let r := updateRootPaths E C W s in
  updateRootPaths E C W (state r) = returned (state r) []
  ∧ (activeTextEditor W = None → r = returned s [])
  ∧ (workspaceFolders W = None ∨ workspaceFolders W = Some [] →
     r = returned s []).
Proof.
  cbv zeta. unfold updateRootPaths.
  destruct (activeTextEditor W) as [editor|]; [|done].
  destruct (workspaceFolders W) as [[|w ws]|]; [done | | done].
  split; [|split; [done | by intros [? | ?]]].
  destruct (String.eqb (scheme editor) "file").
  - destruct (getWorkspaceFolder editor) as [folder|]; cbv beta iota zeta.
    + match goal with
      | |- context [applyRootPaths E C ?root ?active
                      (with_folder (Some folder) s)] =>
        destruct (applyRootPaths_frame root active
                    (with_folder (Some folder) s)) as (_ & _ & Hf);
        pose proof (applyRootPaths_again root active
                      (with_folder (Some folder) s)) as Hagain;
        set (s1 := state (applyRootPaths E C root active
                            (with_folder (Some folder) s))) in *
      end.
      simpl in Hf. rewrite (with_folder_same s1 (Some folder) Hf). exact Hagain.
    + apply applyRootPaths_again.
  - apply applyRootPaths_again.
Qed.

End RootPaths.

(** * The further properties on the sample workspace *)

Lemma parserRaw_default_names_witness :
  let props := [("dependencies", JObj [("vue-i18n", JStr "1.0")])] in
  parserRaw PackageJSONParser Sample.host Sample.vueManifest
  = inr (blockNames "dependencies" props
         ++ blockNames "devDependencies" props
         ++ blockNames "peerDependencies" props)
  ∧ (∀ k, assoc k props = None → blockNames k props = [])
  ∧ (∀ k entries, assoc k props = Some (JObj entries) →
       ∃ indices,
         blockNames k props
         = indices
           ++ List.filter (fun name => negb (isIndex name)) entries.*1
         ∧ indices ≡ₚ List.filter isIndex entries.*1
         ∧ StronglySorted indexLe indices).
Proof.
  apply (parserRaw_default_names Sample.host Sample.vueManifest
           [("dependencies", JObj [("vue-i18n", JStr "1.0")])]).
  - reflexivity.
  - intros v [= <-]. by eexists.
  - intros v Hv. discriminate Hv.
  - intros v Hv. discriminate Hv.
Defined.

(** The keys of a block written "b", "2", "01", "1": the two array indices
    come first. *)
Example object_keys_order :
  Object_keys (JObj [("b", JStr "1.0"); ("2", JStr "1.0"); ("01", JStr "1.0");
                     ("1", JStr "1.0")])
  = inr ["1"; "2"; "b"; "01"].
Proof. vm_compute. reflexivity. Qed.


Lemma update_with_pinned_frameworks_witness :
  let r := Global.update Sample.env Sample.configPinned None Sample.opened in
  (∀ folder, Global.ScanFolder folder ∉ Global.effects r)
  ∧ Global._nearestEnabledFrameworkPath (Global.state r)
    = Global._nearestEnabledFrameworkPath Sample.opened
  ∧ (Global.ignored Sample.env Sample.configPinned None = false →
     Global.enabledFrameworks (Global.state r)
     = getEnabledFrameworksByIds Sample.env ["vue"]
         (Global._currentWorkspaceRootPath Sample.opened))
  ∧ Global.thrown r = None.
Proof.
  apply (update_with_pinned_frameworks Sample.env Sample.configPinned None
           Sample.opened ["vue"]).
  reflexivity.
Defined.

Lemma update_stores_nearest_frameworks_witness :
  let r := Global.update Sample.env Sample.config None Sample.opened in
  match Global.findNearestEnabledFrameworks Sample.env
          (Global._currentWorkspaceRootPath Sample.opened)
          (Global._currentActiveFilePath Sample.opened) with
  | inr found =>
      (Global.enabledFrameworks (Global.state r),
       Global._nearestEnabledFrameworkPath (Global.state r)) = found.1
      ∧ (∀ folder, Global.ScanFolder folder ∈ Global.effects r
                   ↔ folder ∈ found.2)
      ∧ Global.thrown r = None
  | inl e =>
      Global.thrown r = Some e
      ∧ Global.state r = Global.resetCache Sample.opened
      ∧ ∀ folder, Global.ScanFolder folder ∉ Global.effects r
  end.
Proof.
  apply (update_stores_nearest_frameworks Sample.env Sample.config None
           Sample.opened); reflexivity.
Defined.

(** The same call once the framework list has been removed while the
    editor shows an untitled document: the walk throws, and [update] with
    it. *)
Example update_throws_without_active_path :
  let r := Global.update Sample.env Sample.configUnpinned
             (Some (Sample.changeOf ["i18n-ally.enabledFrameworks"]))
             Sample.pinned in
  Global.findNearestEnabledFrameworks Sample.env
    (Global._currentWorkspaceRootPath Sample.pinned)
    (Global._currentActiveFilePath Sample.pinned) = inl TypeError
  ∧ Global.thrown r = Some TypeError
  ∧ Global.state r = Global.resetCache Sample.pinned
  ∧ Global.enabled (Global.state r) = true
  ∧ Global.effects r
    = [Global.LogConfigReloading "i18n-ally.enabledFrameworks";
       Global.LogReloadingLoader].
Proof. vm_compute. done. Qed.

Lemma update_reload_replaces_loader_witness :
  let s := Sample.running in
  let r := Global.update Sample.env Sample.config (Some Sample.reloadChange) s in
  Global.loader (Global.state r)
  = Some {| Global.loader_id := Global.created s; Global.rootpath := "/ws" |}
  ∧ Global.created (Global.state r) = S (Global.created s)
  ∧ Global.disposed (Global.state r) = Global.disposed s
  ∧ (∀ root', root' ≠ "/ws" →
       Global._loaders (Global.state r) !! root' = Global._loaders s !! root')
  ∧ Global.LoaderInit
      {| Global.loader_id := Global.created s; Global.rootpath := "/ws" |}
    ∈ Global.effects r.
Proof.
  apply (update_reload_replaces_loader Sample.env Sample.config
           (Some Sample.reloadChange) Sample.running "/ws").
  - vm_compute. reflexivity.
  - vm_compute. reflexivity.
  - discriminate.
  - vm_compute. reflexivity.
  - vm_compute. reflexivity.
Defined.

Lemma update_reuses_loader_witness :
  let s := Sample.running in
  let r := Global.update Sample.env Sample.config None s in
  Global._loaders (Global.state r) = Global._loaders s
  ∧ Global.created (Global.state r) = Global.created s
  ∧ Global.disposed (Global.state r) = Global.disposed s
  ∧ ∀ l, Global.LoaderInit l ∉ Global.effects r.
Proof.
  apply (update_reuses_loader Sample.env Sample.config None Sample.running).
  - reflexivity.
  - reflexivity.
  - vm_compute. by eexists.
  - vm_compute. reflexivity.
Defined.

Lemma update_keeps_registry_ok_witness :
  Global.registryOk
    (Global.state (Global.update Sample.env Sample.config None Sample.opened)).
Proof.
  apply (update_keeps_registry_ok Sample.env Sample.config None Sample.opened).
  split_and!.
  - intros root l Hl. discriminate Hl.
  - intros root1 root2 l1 l2 Hl. discriminate Hl.
  - intros n Hn. by apply not_elem_of_empty in Hn.
Defined.

Lemma update_usage_refresh_only_witness :
  let ev := Sample.usageChange in
  let r := Global.update Sample.env Sample.config (Some ev) Sample.running in
  Global.state r = Global.resetCache Sample.running
  ∧ (Global.AnalystRefresh ∈ Global.effects r ↔
     ∃ config, config ∈ Config.usageRefreshConfigs Sample.config
               ∧ affectsConfiguration ev
                   (EXT_NAMESPACE Sample.env +:+ "." +:+ config) = true)
  ∧ (∀ x, x ∈ Global.effects r →
          x = Global.AnalystRefresh ∨ ∃ key, x = Global.LogConfigChanged key)
  ∧ Global.thrown r = None.
Proof.
  apply (update_usage_refresh_only Sample.env Sample.config Sample.usageChange
           Sample.running).
  vm_compute. reflexivity.
Defined.

Lemma getUsageMatchRegex_fresh_after_update_witness :
  let E := Sample.env in
  let C := Sample.config in
  let languageId := Some "vue" in
  let filepath := Some "/ws/app/src/x/App.vue" in
  let s' := Global.state
              (Global.update E C (Some Sample.unrelatedChange) Sample.queried) in
  let expected :=
    normalizeUsageMatchRegex E
      (flat_map (fun f => getUsageMatchRegex_of f languageId filepath)
         (Global.enabledFrameworks s')
       ++ Config._regexUsageMatchAppend C) in
  let r := Global.getUsageMatchRegex E C languageId filepath s' in
  r.1 = expected
  ∧ Global._cacheUsageMatchRegex r.2
    = {[ Global.usageKey languageId filepath := expected ]}.
Proof.
  apply (getUsageMatchRegex_fresh_after_update Sample.env Sample.config
           (Some Sample.unrelatedChange) Sample.queried
           (Some "vue") (Some "/ws/app/src/x/App.vue")).
  - reflexivity.
  - vm_compute. intros Hin.
    repeat (apply elem_of_cons in Hin as [Hin | Hin]; [discriminate Hin |]).
    inversion Hin.
Defined.

Lemma getUsageMatchRegex_cached_by_key_witness :
  let E := Sample.env in
  let C := Sample.config in
  let s := Global.with_frameworks [Sample.react] Sample.running in
  let r1 := Global.getUsageMatchRegex E C None None s in
  (∀ fws, Global.getUsageMatchRegex E C (Some "undefined") (Some "undefined")
            (Global.with_frameworks fws r1.2)
          = (r1.1, Global.with_frameworks fws r1.2))
  ∧ Global.getUsageMatchRegex E C (Some "undefined") (Some "undefined") r1.2
    = r1.
Proof.
  apply (getUsageMatchRegex_cached_by_key Sample.env Sample.config
           (Global.with_frameworks [Sample.react] Sample.running)
           None None (Some "undefined") (Some "undefined")); reflexivity.
Defined.

(** The two calls of the last lemma would not agree on an empty cache: the
    sample framework [react] answers differently for the language id
    "undefined". *)
Example usage_key_collision :
  let s := Global.with_frameworks [Sample.react] Sample.running in
  map source (Global.getUsageMatchRegex Sample.env Sample.config None None s).1
  = ["t\(({key})\)"]
  ∧ map source
      (Global.getUsageMatchRegex Sample.env Sample.config
         (Some "undefined") (Some "undefined") s).1
    = ["never\(({key})\)"].
Proof. vm_compute. done. Qed.

Example updateRootPaths_first_then_silent :
  let r := Global.updateRootPaths Sample.env Sample.config Sample.workbench
             Sample.fresh in
  Global._currentWorkspaceRootPath (Global.state r) = Some "/ws"
  ∧ Global._currentActiveFilePath (Global.state r) = Some "/ws/app/src/x"
  ∧ Global.enabled (Global.state r) = true
  ∧ length (Global.effects r) = 5
  ∧ Global.thrown r = None
  ∧ Global.updateRootPaths Sample.env Sample.config Sample.workbench
      (Global.state r)
    = Global.returned (Global.state r) [].
Proof. vm_compute. done. Qed.

(** Without a framework list set by hand, the first [updateRootPaths] on
    an untitled document stores the root and throws inside the [update] it
    awaits; called again it finds nothing changed and is silent. *)
Example updateRootPaths_untitled_throws :
  let r := Global.updateRootPaths Sample.env Sample.config Sample.untitled
             Sample.fresh in
  Global._currentWorkspaceRootPath (Global.state r) = Some "/ws"
  ∧ Global._currentActiveFilePath (Global.state r) = None
  ∧ Global.thrown r = Some TypeError
  ∧ Global.enabled (Global.state r) = false
  ∧ Global.updateRootPaths Sample.env Sample.config Sample.untitled
      (Global.state r)
    = Global.returned (Global.state r) [].
Proof. vm_compute. done. Qed.

Example preferences_by_framework :
  let s := Global.with_frameworks [Sample.vue; Sample.react; Sample.vue]
             Sample.running in
  Global.getNamespaceDelimiter Sample.membersById s = ":"
  ∧ Global.dirStructure Sample.membersById Sample.settings s = Some "file"
  ∧ (Global.requestKeyStyle Sample.membersById Sample.settings None s).1 = "flat"
  ∧ (Global.requestKeyStyle Sample.membersById Sample.settings None
       Sample.running).1 = "nested".
Proof. vm_compute. done. Qed.
